(** * Cross-chain bridge relay: event scanner, relayer, processor loop and
      health checker

    A shallow embedding of [script.py] (ConfigManager, EventScanner,
    TransactionRelayer, CrossChainProcessor) and [health.py] (HealthChecker).

    Conventions of the embedding:
    - Python integers are [Z]; hex strings (transaction hashes) are [string].
    - A call that may raise returns a [Result]; [try_except] is Python's
      [try: ... except Exception: ...].
    - The RPC nodes, the file system and the health probes are the
      environment: every answer they give is an input of the model.
    - Objects are records threaded through the functions that mutate them;
      the externally visible calls (RPC requests, file writes, relays) and
      the pauses are collected in a trace of [Action]s; [Sleep n] stands
      for a call of [time.sleep] that returned, after [n] seconds.
    - Writing the state file is taken to succeed; log lines and the
      interrupt that ends [run] are not modelled. *)

From stdpp Require Import base option list gmap strings fin_maps fin_sets.
From Stdlib Require Import ZArith Lia.

Local Open Scope Z_scope.
Set Warnings "-clear-no-such-hyp".

(** ** Exceptions and fallible calls *)

Inductive exn : Type :=
| FileNotFoundError
| JSONDecodeError
| AttributeError
| KeyError (key : string)
| ValueError (message : string)
| OverflowError
| RpcError (message : string).

Inductive Result (A : Type) : Type :=
| Returned (a : A)
| Raised (e : exn).
Arguments Returned {A} a.
Arguments Raised {A} e.

Global Instance Result_ret : MRet Result := λ A a, Returned a.
Global Instance Result_bind : MBind Result := λ A B k m,
  match m with
  | Returned a => k a
  | Raised e => Raised e
  end.

(** [try: body  except Exception as e: handler e] *)
Definition try_except {A} (body : Result A) (handler : exn → Result A) : Result A :=
  match body with
  | Returned a => Returned a
  | Raised e => handler e
  end.

(** ** Python dictionaries with insertion order

    [pending_events] is iterated with [.items()], so the order of the keys
    matters: a dictionary is a list of bindings in insertion order. *)

Module Dict.
Section Dict.
Context {V : Type}.

(** [k in d] *)
Definition contains (k : string) (d : list (string * V)) : bool :=
  bool_decide (k ∈ d.*1).

(** [d[k] = v]: a present key keeps its position, a new key goes last. *)
Fixpoint setitem (k : string) (v : V) (d : list (string * V)) : list (string * V) :=
  match d with
  | [] => [(k, v)]
  | (k', v') :: rest =>
      if decide (k' = k) then (k, v) :: rest else (k', v') :: setitem k v rest
  end.

(** [del d[k]] for a key that is present. *)
Fixpoint delitem (k : string) (d : list (string * V)) : list (string * V) :=
  match d with
  | [] => []
  | (k', v') :: rest =>
      if decide (k' = k) then rest else (k', v') :: delitem k rest
  end.
End Dict.
End Dict.

(** ** Source-chain events *)

Inductive ArgValue : Type :=
| Address (a : string)
| Uint (n : Z).

(** A [LogReceipt]; [transactionHash] holds the hash as [.hex()] prints it. *)
Record LogReceipt : Type := {
  transactionHash : string;
  blockNumber : Z;
  args : gmap string ArgValue
}.

(** The source node as seen during one scan pass. *)
Record SourceChain : Type := {
  block_number : Result Z;
  get_logs : Z → Z → Result (list LogReceipt)
}.

(** ** The state file [scanner_state.json] *)

Inductive StateFile : Type :=
| Missing                            (* open() raises FileNotFoundError *)
| Undecodable                        (* json.load raises JSONDecodeError *)
| NotAnObject                        (* valid JSON, but not an object *)
| Object (state : gmap string Z).    (* a JSON object with integer members *)

(** ** Externally visible calls *)

Inductive Action : Type :=
| ReadBlockNumber
| GetLogs (fromBlock toBlock : Z)
| SaveState (block : Z)
| Relay (source_tx_hash : string) (relay_tx_hash : option string)
| CacheAdd (source_tx_hash : string)
| Sleep (seconds : Z).

(** ** EventScanner *)

Record EventScanner : Type := {
  confirmations : Z;
  last_scanned_block : Z;
  pending_events : list (string * LogReceipt)
}.

Definition set_last_scanned_block (b : Z) (self : EventScanner) : EventScanner :=
  {| confirmations := confirmations self;
     last_scanned_block := b;
     pending_events := pending_events self |}.

Definition set_pending_events (d : list (string * LogReceipt)) (self : EventScanner)
  : EventScanner :=
  {| confirmations := confirmations self;
     last_scanned_block := last_scanned_block self;
     pending_events := d |}.

(** [_load_last_scanned_block]. The default of [state.get] is an argument,
    so the block height is read before the lookup; a decoded value without
    a [get] method fails before that. *)
Definition _load_last_scanned_block (chain_height : Result Z) (file : StateFile)
  : Result Z :=
  let body :=
    match file with
    | Missing => Raised FileNotFoundError
    | Undecodable => Raised JSONDecodeError
    | NotAnObject => Raised AttributeError
    | Object state =>
        h ← chain_height;
        mret (default (h - 1) (state !! "last_scanned_block"%string))
    end in
  match body with
  | Raised FileNotFoundError | Raised JSONDecodeError =>
      h ← chain_height; mret (h - 1)
  | r => r
  end.

(** [_save_last_scanned_block] *)
Definition _save_last_scanned_block (block_number : Z) : StateFile :=
  Object {[ "last_scanned_block"%string := block_number ]}.

(** The first loop of [_check_confirmations]: the events to hand back and
    the keys to delete, both in the order of [pending_events.items()]. *)
Fixpoint confirmed_of (confirmations current_block : Z)
    (items : list (string * LogReceipt)) : list LogReceipt * list string :=
  match items with
  | [] => ([], [])
  | (tx_hash, event) :: rest =>
      let '(confirmed_events, events_to_remove) :=
        confirmed_of confirmations current_block rest in
      if current_block - blockNumber event >=? confirmations
      then (event :: confirmed_events, tx_hash :: events_to_remove)
      else (confirmed_events, events_to_remove)
  end.

Definition _check_confirmations (current_block : Z) (self : EventScanner)
  : list LogReceipt * EventScanner :=
  let '(confirmed_events, events_to_remove) :=
    confirmed_of (confirmations self) current_block (pending_events self) in
  (confirmed_events,
   set_pending_events
     (foldl (λ d tx_hash, Dict.delitem tx_hash d) (pending_events self) events_to_remove)
     self).

(** The body of [for event in logs] in [scan_and_process_blocks]. *)
Definition track (pending : list (string * LogReceipt)) (event : LogReceipt)
  : list (string * LogReceipt) :=
  let tx_hash := transactionHash event in
  if Dict.contains tx_hash pending then pending
  else Dict.setitem tx_hash event pending.

Record ScanResult : Type := {
  scan_outcome : Result (list LogReceipt);
  scan_self : EventScanner;
  scan_file : StateFile;
  scan_trace : list Action
}.

Definition scan_and_process_blocks (chain : SourceChain) (self : EventScanner)
    (file : StateFile) : ScanResult :=
  match block_number chain with
  | Raised e =>
      {| scan_outcome := Raised e; scan_self := self; scan_file := file;
         scan_trace := [ReadBlockNumber] |}
  | Returned latest_block =>
      if last_scanned_block self >=? latest_block then
        {| scan_outcome := Returned []; scan_self := self; scan_file := file;
           scan_trace := [ReadBlockNumber] |}
      else
        let from_block := last_scanned_block self + 1 in
        let to_block := Z.min latest_block (from_block + 100) in
        match get_logs chain from_block to_block with
        | Raised e =>
            {| scan_outcome := Returned []; scan_self := self; scan_file := file;
               scan_trace := [ReadBlockNumber; GetLogs from_block to_block] |}
        | Returned logs =>
            let self1 := set_pending_events (foldl track (pending_events self) logs) self in
            let '(confirmed_events, self2) := _check_confirmations latest_block self1 in
            {| scan_outcome := Returned confirmed_events;
               scan_self := set_last_scanned_block to_block self2;
               scan_file := _save_last_scanned_block to_block;
               scan_trace := [ReadBlockNumber; GetLogs from_block to_block;
                              SaveState to_block] |}
        end
  end.

(** ** TransactionRelayer *)

Record MintCall : Type := {
  mint_recipient : ArgValue;
  mint_amount : ArgValue;
  mint_sourceTxHash : string
}.

Record TxParams : Type := {
  tx_from : string;
  tx_nonce : Z;
  tx_gas : Z;
  tx_gasPrice : Z
}.

Record TxReceipt : Type := {
  status : Z;
  receipt_blockNumber : Z
}.

(** The destination node and bridge contract as seen during one relay. *)
Record DestChain : Type := {
  get_transaction_count : string → Result Z;
  mintBridgedTokens : ArgValue → ArgValue → string → Result MintCall;
  gas_price : Result Z;
  build_transaction : MintCall → TxParams → Result string;
  sign_transaction : string → string → Result string;
  send_raw_transaction : string → Result string;
  wait_for_transaction_receipt : string → Z → Result TxReceipt
}.

Record TransactionRelayer : Type := {
  address : string;
  account_key : string
}.

(** [d[k]] on the decoded arguments of an event. *)
Definition getitem (d : gmap string ArgValue) (k : string) : Result ArgValue :=
  match d !! k with
  | Some v => Returned v
  | None => Raised (KeyError k)
  end.

Definition relay_mint_transaction (self : TransactionRelayer) (w3 : DestChain)
    (event : LogReceipt) : Result (option string) :=
  try_except
    (recipient ← getitem (args event) "recipient";
     amount ← getitem (args event) "amount";
     let source_tx_hash := transactionHash event in
     nonce ← get_transaction_count w3 (address self);
     call ← mintBridgedTokens w3 recipient amount source_tx_hash;
     gasPrice ← gas_price w3;
     tx_data ← build_transaction w3 call
       {| tx_from := address self; tx_nonce := nonce;
          tx_gas := 200000; tx_gasPrice := gasPrice |};
     signed_tx ← sign_transaction w3 tx_data (account_key self);
     tx_hash ← send_raw_transaction w3 signed_tx;
     receipt ← wait_for_transaction_receipt w3 tx_hash 120;
     if decide (status receipt = 1) then mret (Some tx_hash) else mret None)
    (λ e, mret None).

(** ** CrossChainProcessor *)

Record ConfigManager : Type := {
  confirmation_blocks : Z;
  scan_interval_seconds : Z
}.

Record CrossChainProcessor : Type := {
  config : ConfigManager;
  processed_txs_cache : gset string;
  event_scanner : EventScanner;
  tx_relayer : TransactionRelayer
}.

(** What [requests.post] and the two calls on the response come to. *)
Inductive HttpOutcome : Type :=
| RequestFailed                  (* a RequestException: no connection, timeout *)
| ErrorStatus                    (* raise_for_status() raises HTTPError *)
| JsonBody (has_result : bool).  (* whether 'result' is in response.json() *)

Definition _is_rpc_healthy (o : HttpOutcome) : bool :=
  match o with
  | RequestFailed | ErrorStatus => false
  | JsonBody has_result => has_result
  end.

(** Truth value of an [Optional[str]]: [None] and the empty string are false. *)
Definition truthy (o : option string) : bool :=
  match o with
  | Some s => negb (String.eqb s "")
  | None => false
  end.

(** [for event in confirmed_events] of [run]. *)
Fixpoint relay_confirmed (relayer : TransactionRelayer) (dest : LogReceipt → DestChain)
    (confirmed_events : list LogReceipt) (cache : gset string)
  : Result unit * gset string * list Action :=
  match confirmed_events with
  | [] => (Returned (), cache, [])
  | event :: rest =>
      let source_tx_hash := transactionHash event in
      if decide (source_tx_hash ∈ cache) then
        relay_confirmed relayer dest rest cache
      else
        match relay_mint_transaction relayer (dest event) event with
        | Raised e => (Raised e, cache, [])
        | Returned relay_tx_hash =>
            if truthy relay_tx_hash then
              let '(r, cache', tr) :=
                relay_confirmed relayer dest rest ({[ source_tx_hash ]} ∪ cache) in
              (r, cache', Relay source_tx_hash relay_tx_hash :: CacheAdd source_tx_hash :: tr)
            else
              let '(r, cache', tr) := relay_confirmed relayer dest rest cache in
              (r, cache', Relay source_tx_hash relay_tx_hash :: tr)
        end
  end.

(** The largest whole number of seconds [time.sleep] takes: the clock
    counts nanoseconds in 64 bits. *)
Definition SLEEP_MAX : Z := 9223372036.

(** [time.sleep(seconds)] either pauses and returns or raises at once. *)
Definition time_sleep (seconds : Z) : Result unit :=
  if decide (seconds < 0) then
    Raised (ValueError "sleep length must be non-negative")
  else if decide (SLEEP_MAX < seconds) then Raised OverflowError
  else Returned ().

(** Everything the two nodes answer during one iteration of [while True]. *)
Record Cycle : Type := {
  source_probe : HttpOutcome;
  dest_probe : HttpOutcome;
  source : SourceChain;
  dest : LogReceipt → DestChain
}.

Definition set_event_scanner (s : EventScanner) (self : CrossChainProcessor)
  : CrossChainProcessor :=
  {| config := config self; processed_txs_cache := processed_txs_cache self;
     event_scanner := s; tx_relayer := tx_relayer self |}.

Definition set_processed_txs_cache (c : gset string) (self : CrossChainProcessor)
  : CrossChainProcessor :=
  {| config := config self; processed_txs_cache := c;
     event_scanner := event_scanner self; tx_relayer := tx_relayer self |}.

(** One iteration of the loop of [run]. The sleep at the end of the [try]
    block may raise, and then the handler sleeps its 60 seconds; the two
    calls [time.sleep(60)] always return. *)
Definition cycle (c : Cycle) (self : CrossChainProcessor) (file : StateFile)
  : CrossChainProcessor * StateFile * list Action :=
  if negb (_is_rpc_healthy (source_probe c)) || negb (_is_rpc_healthy (dest_probe c)) then
    (self, file, [Sleep 60])
  else
    let s := scan_and_process_blocks (source c) (event_scanner self) file in
    let self1 := set_event_scanner (scan_self s) self in
    match scan_outcome s with
    | Raised e => (self1, scan_file s, scan_trace s ++ [Sleep 60])
    | Returned confirmed_events =>
        match relay_confirmed (tx_relayer self) (dest c) confirmed_events
                (processed_txs_cache self) with
        | (Raised e, cache, tr) =>
            (set_processed_txs_cache cache self1, scan_file s,
             scan_trace s ++ tr ++ [Sleep 60])
        | (Returned _, cache, tr) =>
            match time_sleep (scan_interval_seconds (config self)) with
            | Returned _ =>
                (set_processed_txs_cache cache self1, scan_file s,
                 scan_trace s ++ tr ++ [Sleep (scan_interval_seconds (config self))])
            | Raised e =>
                (set_processed_txs_cache cache self1, scan_file s,
                 scan_trace s ++ tr ++ [Sleep 60])
            end
        end
    end.

(** A finite prefix of the loop: one [Cycle] per iteration. *)
Fixpoint run (cycles : list Cycle) (self : CrossChainProcessor) (file : StateFile)
  : CrossChainProcessor * StateFile * list Action :=
  match cycles with
  | [] => (self, file, [])
  | c :: rest =>
      let '(self1, file1, tr1) := cycle c self file in
      let '(self2, file2, tr2) := run rest self1 file1 in
      (self2, file2, tr1 ++ tr2)
  end.

(** [CrossChainProcessor.__init__] with [EventScanner.__init__]: what a
    (re)start of the process builds from the state file. *)
Definition CrossChainProcessor_init (cfg : ConfigManager) (relayer : TransactionRelayer)
    (chain_height : Result Z) (file : StateFile) : Result CrossChainProcessor :=
  last ← _load_last_scanned_block chain_height file;
  mret {| config := cfg;
          processed_txs_cache := ∅;
          event_scanner := {| confirmations := confirmation_blocks cfg;
                              last_scanned_block := last;
                              pending_events := [] |};
          tx_relayer := relayer |}.

(** The life of a deployment: loop iterations and process restarts. *)
Inductive Step : Type :=
| Iterate (c : Cycle)
| Restart (chain_height : Result Z).

Fixpoint execute (steps : list Step) (self : CrossChainProcessor) (file : StateFile)
  : CrossChainProcessor * StateFile * list Action :=
  match steps with
  | [] => (self, file, [])
  | Iterate c :: rest =>
      let '(self1, file1, tr1) := cycle c self file in
      let '(self2, file2, tr2) := execute rest self1 file1 in
      (self2, file2, tr1 ++ tr2)
  | Restart chain_height :: rest =>
      match CrossChainProcessor_init (config self) (tx_relayer self) chain_height file with
      | Returned self1 => execute rest self1 file
      | Raised e => (self, file, [])
      end
  end.

(** The identifiers handed to [processed_txs_cache.add], in order. *)
Definition recorded (tr : list Action) : list string :=
  omap (λ a, match a with CacheAdd tx => Some tx | _ => None end) tr.

(** The identifiers handed to [relay_mint_transaction], in order. *)
Definition relayed (tr : list Action) : list string :=
  omap (λ a, match a with Relay tx _ => Some tx | _ => None end) tr.

(** The block ranges handed to [get_logs], in order. *)
Definition scanned_ranges (tr : list Action) : list (Z * Z) :=
  omap (λ a, match a with GetLogs f t => Some (f, t) | _ => None end) tr.

(** What [pending_events] looks like in a running scanner: every key is the
    hash of the event stored under it (and, in a dictionary, keys are
    unique). *)
Definition keyed_by_hash (d : list (string * LogReceipt)) : Prop :=
  NoDup d.*1 ∧ ∀ k ev, (k, ev) ∈ d → k = transactionHash ev.

(** The source node reports transaction [tx] during iteration [c]: some
    log query of that iteration answers with a log of [tx]. *)
Definition reports (c : Cycle) (tx : string) : Prop :=
  ∃ f t logs, get_logs (source c) f t = Returned logs ∧ tx ∈ transactionHash <$> logs.

(** The logs that the scan pass of iteration [c] fetches when it starts
    from [self]: none when a probe fails, the height cannot be read, there
    is no new block or the query raises. *)
Definition fetched (c : Cycle) (self : CrossChainProcessor) : list LogReceipt :=
  if negb (_is_rpc_healthy (source_probe c)) || negb (_is_rpc_healthy (dest_probe c))
  then []
  else
    match block_number (source c) with
    | Raised e => []
    | Returned latest_block =>
        let cursor := last_scanned_block (event_scanner self) in
        if cursor >=? latest_block then []
        else
          match get_logs (source c) (cursor + 1)
                  (Z.min latest_block (cursor + 1 + 100)) with
          | Returned logs => logs
          | Raised e => []
          end
    end.

(** None of the log queries made while the iterations [cycles] run from
    [self] answers with a log of [tx]. *)
Fixpoint never_fetched (tx : string) (cycles : list Cycle)
    (self : CrossChainProcessor) (file : StateFile) : Prop :=
  match cycles with
  | [] => True
  | c :: rest =>
      ¬ tx ∈ transactionHash <$> fetched c self ∧
      never_fetched tx rest (cycle c self file).1.1 (cycle c self file).1.2
  end.

(** A trace that respects the ledger [L]: a relay is only attempted for an
    identifier that is not in the ledger, and a relay that succeeded is
    followed by the [CacheAdd] of its identifier. *)
Inductive guarded : gset string → list Action → Prop :=
| guarded_nil L : guarded L []
| guarded_other L a tr :
    (∀ tx r, a ≠ Relay tx r) → (∀ tx, a ≠ CacheAdd tx) →
    guarded L tr → guarded L (a :: tr)
| guarded_failed L tx r tr :
    tx ∉ L → truthy r = false →
    guarded L tr → guarded L (Relay tx r :: tr)
| guarded_relayed L tx r tr :
    tx ∉ L → truthy r = true →
    guarded ({[ tx ]} ∪ L) tr → guarded L (Relay tx r :: CacheAdd tx :: tr).

(** ** HealthChecker ([health.py]) *)

Module Health.

Inductive HealthStatus : Type := healthy | unhealthy | unknown.

(** [_thread] is [None] or a thread object; for a thread object the model
    keeps what [is_alive()] answers when [start] or [stop] asks. *)
Record HealthChecker : Type := {
  interval : Z;
  status : HealthStatus;
  _thread : option bool;
  _stop_event : bool
}.

Definition set_status (s : HealthStatus) (self : HealthChecker) : HealthChecker :=
  {| interval := interval self; status := s;
     _thread := _thread self; _stop_event := _stop_event self |}.

Definition set_stop_event (b : bool) (self : HealthChecker) : HealthChecker :=
  {| interval := interval self; status := status self;
     _thread := _thread self; _stop_event := b |}.

Definition set_thread (t : option bool) (self : HealthChecker) : HealthChecker :=
  {| interval := interval self; status := status self;
     _thread := t; _stop_event := _stop_event self |}.

(** [__init__]; the type of [interval] already makes it an integer. *)
Definition init (interval : Z) : Result HealthChecker :=
  if decide (interval ≤ 0) then
    Raised (ValueError "Interval must be a positive integer.")
  else
    Returned {| interval := interval; status := unknown;
                _thread := None; _stop_event := false |}.

(** The [try] statement in the loop of [_run_checks]; [probe] is what
    [check_func(item)] does this time. *)
Definition check (probe : Result bool) (self : HealthChecker) : Result HealthChecker :=
  try_except
    (is_healthy ← probe;
     mret (set_status (if is_healthy : bool then healthy else unhealthy) self))
    (λ e, mret (set_status unhealthy self)).

(** [threading.TIMEOUT_MAX]: the largest timeout a lock accepts. *)
Definition TIMEOUT_MAX : Z := 9223372036.

(** When, during one turn of the loop, [stop] sets the event. *)
Inductive StopRequest : Type :=
| NoStop        (* not during this turn *)
| DuringProbe   (* while the probe runs: the event is set when the wait starts *)
| DuringWait.   (* while the thread waits *)

(** One turn of the loop as the environment shapes it: the probe, and
    what [stop] does meanwhile. *)
Record Tick : Type := {
  probe : Result bool;
  stop_requested : StopRequest
}.

(** [self._stop_event.wait(self.interval)]: with the event already set it
    returns at once; otherwise it waits on a lock with that timeout, which
    raises for a timeout above [TIMEOUT_MAX]. *)
Definition wait (request : StopRequest) (self : HealthChecker) : Result HealthChecker :=
  match request with
  | DuringProbe => Returned (set_stop_event true self)
  | DuringWait =>
      if decide (TIMEOUT_MAX < interval self) then Raised OverflowError
      else Returned (set_stop_event true self)
  | NoStop =>
      if decide (TIMEOUT_MAX < interval self) then Raised OverflowError
      else Returned self
  end.

Inductive Loop : Type := Waiting | Exited.

(** [_run_checks] over the turns the environment allows: how the loop
    stands (or what it raised) and the checker as it leaves it. The wait is
    outside the [try] statement. *)
Fixpoint _run_checks (ticks : list Tick) (self : HealthChecker)
  : Result Loop * HealthChecker :=
  if _stop_event self then (Returned Exited, self)
  else
    match ticks with
    | [] => (Returned Waiting, self)
    | t :: rest =>
        match check (probe t) self with
        | Raised e => (Raised e, self)
        | Returned self1 =>
            match wait (stop_requested t) self1 with
            | Raised e => (Raised e, self1)
            | Returned self2 => _run_checks rest self2
            end
        end
    end.

Definition start (self : HealthChecker) : HealthChecker :=
  match _thread self with
  | Some true => self
  | _ => set_thread (Some true) (set_stop_event false self)
  end.

(** [joined]: whether the thread ends within the one second of [join]. *)
Definition stop (joined : bool) (self : HealthChecker) : HealthChecker :=
  match _thread self with
  | Some true => set_thread (Some (negb joined)) (set_stop_event true self)
  | _ => self
  end.

Definition is_healthy (self : HealthChecker) : bool :=
  match status self with
  | healthy => true
  | _ => false
  end.

End Health.

(** ** ConfigManager: reading the environment and validating it *)

Module Config.

(** The attributes of a [ConfigManager]; a variable that is not set reads
    as [None]. *)
Record Settings : Type := {
  source_rpc_url : option string;
  dest_rpc_url : option string;
  relayer_private_key : option string;
  source_bridge_address : option string;
  dest_bridge_address : option string;
  confirmation_blocks : Z;
  scan_interval_seconds : Z;
  source_abi_path : string;
  dest_abi_path : string
}.

Definition required_vars : list (string * (Settings → option string)) :=
  [("source_rpc_url"%string, source_rpc_url);
   ("dest_rpc_url"%string, dest_rpc_url);
   ("relayer_private_key"%string, relayer_private_key);
   ("source_bridge_address"%string, source_bridge_address);
   ("dest_bridge_address"%string, dest_bridge_address)].

(** [not getattr(self, var)]: [None] and the empty string count as missing. *)
Definition unset (o : option string) : bool :=
  match o with
  | Some s => String.eqb s ""
  | None => true
  end.

(** [[var for var in required_vars if not getattr(self, var)]] *)
Definition missing_vars (self : Settings) : list string :=
  omap (λ '(var, attribute), if unset (attribute self) then Some var else None)
       required_vars.

Definition validate (self : Settings) : Result unit :=
  match missing_vars self with
  | [] => Returned ()
  | missing =>
      Raised (ValueError ("Missing required environment variables: "
                          +:+ String.concat ", " missing))
  end.

Section Init.
(** Python's [int] on the text of a variable. *)
Variable int : string → Result Z.

(** [int(os.getenv(name, default))] *)
Definition getenv_int (environ : gmap string string) (name : string) (default : Z)
  : Result Z :=
  match environ !! name with
  | Some text => int text
  | None => Returned default
  end.

(** [ConfigManager.__init__] *)
Definition init (environ : gmap string string) : Result Settings :=
  confirmation_blocks ← getenv_int environ "CONFIRMATION_BLOCKS" 12;
  scan_interval_seconds ← getenv_int environ "SCAN_INTERVAL_SECONDS" 15;
  let self :=
    {| source_rpc_url := environ !! "SOURCE_CHAIN_RPC_URL"%string;
       dest_rpc_url := environ !! "DEST_CHAIN_RPC_URL"%string;
       relayer_private_key := environ !! "RELAYER_PRIVATE_KEY"%string;
       source_bridge_address := environ !! "SOURCE_BRIDGE_CONTRACT_ADDRESS"%string;
       dest_bridge_address := environ !! "DEST_BRIDGE_CONTRACT_ADDRESS"%string;
       confirmation_blocks := confirmation_blocks;
       scan_interval_seconds := scan_interval_seconds;
       source_abi_path := "source_abi.json";
       dest_abi_path := "dest_abi.json" |} in
  _ ← validate self;
  mret self.
End Init.

End Config.

(** The state file holds the cursor of the scanner. *)
Definition file_in_step (self : CrossChainProcessor) (file : StateFile) : Prop :=
  file = _save_last_scanned_block (last_scanned_block (event_scanner self)).

(** ** Concrete inputs used by the examples *)

Module Scenario.

(** A [TokensDeposited] log of transaction [tx] in block [b]. *)
Definition deposit (tx : string) (b : Z) : LogReceipt :=
  {| transactionHash := tx; blockNumber := b;
     args := {[ "recipient"%string := Address "0xbeef";
                "amount"%string := Uint 7 ]} |}.

Definition scanner_at (cursor : Z) (pending : list (string * LogReceipt))
  : EventScanner :=
  {| confirmations := 12; last_scanned_block := cursor; pending_events := pending |}.

(** A source node at height [h] whose log query answers [logs]. *)
Definition node (h : Z) (logs : Result (list LogReceipt)) : SourceChain :=
  {| block_number := Returned h; get_logs := λ _ _, logs |}.

(** A destination node; [sent] is what [send_raw_transaction] does and
    [st] the status of the receipt. *)
Definition dest_node (sent : Result string) (st : Z) : DestChain :=
  {| get_transaction_count := λ _, Returned 3;
     mintBridgedTokens := λ r a s,
       Returned {| mint_recipient := r; mint_amount := a; mint_sourceTxHash := s |};
     gas_price := Returned 10;
     build_transaction := λ _ _, Returned "0xdata"%string;
     sign_transaction := λ _ _, Returned "0xraw"%string;
     send_raw_transaction := λ _, sent;
     wait_for_transaction_receipt := λ _ _,
       Returned {| status := st; receipt_blockNumber := 9 |} |}.

Definition relayer : TransactionRelayer :=
  {| address := "0xrelayer"%string; account_key := "0xkey"%string |}.

Definition default_config : ConfigManager :=
  {| confirmation_blocks := 12; scan_interval_seconds := 15 |}.

Definition processor_at (cursor : Z) : CrossChainProcessor :=
  {| config := default_config; processed_txs_cache := ∅;
     event_scanner := scanner_at cursor []; tx_relayer := relayer |}.

(** An iteration with both nodes healthy. *)
Definition healthy_cycle (h : Z) (logs : Result (list LogReceipt))
    (sent : Result string) : Cycle :=
  {| source_probe := JsonBody true; dest_probe := JsonBody true;
     source := node h logs; dest := λ _, dest_node sent 1 |}.

End Scenario.

(** * Properties *)

(** ** Dictionaries *)

Section DictFacts.
Context {V : Type}.
Implicit Types (d : list (string * V)) (k : string) (v : V).

Lemma delitem_elem_of k d k' v :
  NoDup d.*1 → (k', v) ∈ Dict.delitem k d ↔ (k', v) ∈ d ∧ k' ≠ k.
Proof.
  induction d as [|[k0 v0] d IH]; simpl; intros Hnd.
  - rewrite elem_of_nil. tauto.
  - apply NoDup_cons in Hnd as [Hk0 Hnd].
    case_decide as Hk; subst.
    + rewrite elem_of_cons. split.
      * intros Hin. split; [by right|].
        intros ->. apply Hk0. apply list_elem_of_fmap. by exists (k, v).
      * intros [[Heq|Hin] Hne]; [congruence|done].
    + rewrite !elem_of_cons, IH by done. split.
      * intros [Heq|[Hin Hne]]; [|by auto].
        injection Heq as -> ->. auto.
      * intros [[Heq|Hin] Hne]; auto.
Qed.

Lemma delitem_keys k d k' : k' ∈ (Dict.delitem k d).*1 → k' ∈ d.*1.
Proof.
  induction d as [|[k0 v0] d IH]; simpl; [done|].
  case_decide; simpl; rewrite !elem_of_cons; intuition.
Qed.

Lemma delitem_NoDup k d : NoDup d.*1 → NoDup (Dict.delitem k d).*1.
Proof.
  induction d as [|[k0 v0] d IH]; simpl; [done|].
  intros [Hk0 Hnd]%NoDup_cons. case_decide; [done|].
  simpl. apply NoDup_cons. split; [|by apply IH].
  intros Hin%delitem_keys. done.
Qed.

Lemma foldl_delitem_elem_of ks d k v :
  NoDup d.*1 →
  (k, v) ∈ foldl (λ d k, Dict.delitem k d) d ks ↔ (k, v) ∈ d ∧ k ∉ ks.
Proof.
  revert d. induction ks as [|k0 ks IH]; simpl; intros d Hnd.
  - rewrite elem_of_nil. tauto.
  - rewrite IH by by apply delitem_NoDup.
    rewrite delitem_elem_of, not_elem_of_cons by done. tauto.
Qed.

Lemma setitem_fresh k v d : k ∉ d.*1 → Dict.setitem k v d = d ++ [(k, v)].
Proof.
  induction d as [|[k0 v0] d IH]; simpl; [done|].
  intros [Hne Hk]%not_elem_of_cons. case_decide; [congruence|].
  by rewrite IH.
Qed.

Lemma dict_value_unique d k v1 v2 :
  NoDup d.*1 → (k, v1) ∈ d → (k, v2) ∈ d → v1 = v2.
Proof.
  induction d as [|[k0 v0] d IH]; simpl; intros Hnd H1 H2.
  - by apply elem_of_nil in H1.
  - apply NoDup_cons in Hnd as [Hk0 Hnd].
    apply elem_of_cons in H1 as [H1|H1]; apply elem_of_cons in H2 as [H2|H2].
    + congruence.
    + injection H1 as -> ->. destruct Hk0. apply list_elem_of_fmap. by exists (k0, v2).
    + injection H2 as -> ->. destruct Hk0. apply list_elem_of_fmap. by exists (k0, v1).
    + eauto.
Qed.
End DictFacts.

(** ** The confirmation pass *)

Lemma confirmed_of_events c H items ev :
  ev ∈ (confirmed_of c H items).1 ↔
  ∃ k, (k, ev) ∈ items ∧ c ≤ H - blockNumber ev.
Proof.
  induction items as [|[k0 ev0] items IH]; simpl.
  - rewrite elem_of_nil. split; [done|]. intros (k & Hin & _). by apply elem_of_nil in Hin.
  - destruct (confirmed_of c H items) as [cs ks] eqn:Hrec. simpl in IH.
    destruct (Z.geb_spec (H - blockNumber ev0) c) as [Hge|Hlt]; simpl.
    + rewrite elem_of_cons, IH. split.
      * intros [->|(k & Hin & Hage)]; [exists k0|exists k]; rewrite elem_of_cons; auto.
      * intros (k & [Heq|Hin]%elem_of_cons & Hage); [left; congruence|right; eauto].
    + rewrite IH. split.
      * intros (k & Hin & Hage). exists k. rewrite elem_of_cons. auto.
      * intros (k & [Heq|Hin]%elem_of_cons & Hage); [|eauto].
        injection Heq as -> ->. lia.
Qed.

Lemma confirmed_of_keys c H items k :
  k ∈ (confirmed_of c H items).2 ↔
  ∃ ev, (k, ev) ∈ items ∧ c ≤ H - blockNumber ev.
Proof.
  induction items as [|[k0 ev0] items IH]; simpl.
  - rewrite elem_of_nil. split; [done|]. intros (ev & Hin & _). by apply elem_of_nil in Hin.
  - destruct (confirmed_of c H items) as [cs ks] eqn:Hrec. simpl in IH.
    destruct (Z.geb_spec (H - blockNumber ev0) c) as [Hge|Hlt]; simpl.
    + rewrite elem_of_cons, IH. split.
      * intros [->|(ev & Hin & Hage)]; [exists ev0|exists ev]; rewrite elem_of_cons; auto.
      * intros (ev & [Heq|Hin]%elem_of_cons & Hage); [left; congruence|right; eauto].
    + rewrite IH. split.
      * intros (ev & Hin & Hage). exists ev. rewrite elem_of_cons. auto.
      * intros (ev & [Heq|Hin]%elem_of_cons & Hage); [|eauto].
        injection Heq as -> ->. lia.
Qed.

Lemma check_confirmations_unfold H self :
  _check_confirmations H self =
  ((confirmed_of (confirmations self) H (pending_events self)).1,
   set_pending_events
     (foldl (λ d tx_hash, Dict.delitem tx_hash d) (pending_events self)
        (confirmed_of (confirmations self) H (pending_events self)).2) self).
Proof. unfold _check_confirmations. by destruct (confirmed_of _ _ _). Qed.

(** C4. In [_check_confirmations] a pending event is returned as confirmed
    exactly when the current height minus its block number reaches the
    confirmation threshold, and it stays in [pending_events] exactly when
    it does not. *)
Theorem check_confirmations_threshold (H : Z) (self : EventScanner)
    (tx_hash : string) (event : LogReceipt) :
  NoDup (pending_events self).*1 →
  (tx_hash, event) ∈ pending_events self →
  (event ∈ (_check_confirmations H self).1 ↔
     confirmations self ≤ H - blockNumber event) ∧
  ((tx_hash, event) ∈ pending_events (_check_confirmations H self).2 ↔
     H - blockNumber event < confirmations self).
Proof.
  intros Hnd Hin. rewrite check_confirmations_unfold. simpl. split.
  - rewrite confirmed_of_events. split; [by intros (k & _ & Hage)|eauto].
  - rewrite foldl_delitem_elem_of, confirmed_of_keys by done. split.
    + intros [_ Hno]. destruct (Z.lt_ge_cases (H - blockNumber event) (confirmations self));
        [done|]. destruct Hno. eauto.
    + intros Hlt. split; [done|]. intros (ev & Hin' & Hage).
      assert (ev = event) as -> by eauto using dict_value_unique. lia.
Qed.

(** The scenario of C4: threshold 12, height 100; the event of block 85 is
    confirmed, the event of block 95 stays pending. *)
Lemma check_confirmations_threshold_witness :
  let a := Scenario.deposit "0xa" 85 in
  let b := Scenario.deposit "0xb" 95 in
  let self := Scenario.scanner_at 99 [("0xa"%string, a); ("0xb"%string, b)] in
  (a ∈ (_check_confirmations 100 self).1 ∧
   ("0xa"%string, a) ∉ pending_events (_check_confirmations 100 self).2) ∧
  (¬ b ∈ (_check_confirmations 100 self).1 ∧
   ("0xb"%string, b) ∈ pending_events (_check_confirmations 100 self).2).
Proof.
  intros a b self.
  assert (Hnd : NoDup (pending_events self).*1).
  { apply (bool_decide_unpack _). vm_compute. exact I. }
  split.
  - destruct (check_confirmations_threshold 100 self "0xa" a Hnd) as [Hc Hp].
    { apply elem_of_cons. by left. }
    split.
    + apply Hc. simpl. lia.
    + intros Hin%Hp. simpl in Hin. lia.
  - destruct (check_confirmations_threshold 100 self "0xb" b Hnd) as [Hc Hp].
    { apply elem_of_cons. right. apply elem_of_cons. by left. }
    split.
    + intros Hin%Hc. simpl in Hin. lia.
    + apply Hp. simpl. lia.
Defined.

(** ** The scan pass *)

Lemma track_keyed_by_hash pending event :
  keyed_by_hash pending → keyed_by_hash (track pending event).
Proof.
  intros [Hnd Hkey]. unfold track, Dict.contains.
  case_bool_decide as Hin; [done|].
  rewrite setitem_fresh by done. split.
  - rewrite fmap_app. apply NoDup_app. split_and!; [done| |apply NoDup_singleton].
    intros k Hk [= ->]%list_elem_of_singleton. done.
  - intros k ev [Hold|[= -> ->]%list_elem_of_singleton]%elem_of_app; eauto.
Qed.

Lemma foldl_track_keyed_by_hash logs pending :
  keyed_by_hash pending → keyed_by_hash (foldl track pending logs).
Proof.
  revert pending. induction logs as [|event logs IH]; simpl; [done|].
  intros pending Hwf. by apply IH, track_keyed_by_hash.
Qed.

Lemma check_confirmations_keyed_by_hash H self :
  keyed_by_hash (pending_events self) →
  keyed_by_hash (pending_events (_check_confirmations H self).2).
Proof.
  intros [Hnd Hkey]. rewrite check_confirmations_unfold. simpl.
  generalize (confirmed_of (confirmations self) H (pending_events self)).2.
  intros ks. revert Hnd Hkey. generalize (pending_events self).
  induction ks as [|k ks IH]; simpl; intros d Hnd Hkey; [done|].
  apply IH; [by apply delitem_NoDup|].
  intros k' ev [Hin _]%delitem_elem_of; eauto.
Qed.

Lemma scan_new_blocks chain self file H :
  block_number chain = Returned H →
  last_scanned_block self < H →
  scan_and_process_blocks chain self file =
  let from_block := last_scanned_block self + 1 in
  let to_block := Z.min H (from_block + 100) in
  match get_logs chain from_block to_block with
  | Raised e =>
      {| scan_outcome := Returned []; scan_self := self; scan_file := file;
         scan_trace := [ReadBlockNumber; GetLogs from_block to_block] |}
  | Returned logs =>
      let self1 := set_pending_events (foldl track (pending_events self) logs) self in
      {| scan_outcome := Returned (_check_confirmations H self1).1;
         scan_self := set_last_scanned_block to_block (_check_confirmations H self1).2;
         scan_file := _save_last_scanned_block to_block;
         scan_trace := [ReadBlockNumber; GetLogs from_block to_block; SaveState to_block] |}
  end.
Proof.
  intros Hbn Hlt. unfold scan_and_process_blocks. rewrite Hbn.
  destruct (Z.geb_spec (last_scanned_block self) H); [lia|]. simpl.
  destruct (get_logs chain _ _); [|done].
  by destruct (_check_confirmations _ _).
Qed.

(** Every pass keeps [pending_events] a dictionary keyed by hash. *)
Lemma scan_keyed_by_hash chain self file :
  keyed_by_hash (pending_events self) →
  keyed_by_hash (pending_events (scan_self (scan_and_process_blocks chain self file))).
Proof.
  intros Hwf. unfold scan_and_process_blocks.
  destruct (block_number chain) as [H|]; [|done].
  destruct (_ >=? _); [done|].
  destruct (get_logs chain _ _) as [logs|]; [|done].
  pose proof (check_confirmations_keyed_by_hash H
    (set_pending_events (foldl track (pending_events self) logs) self)) as Hc.
  destruct (_check_confirmations _ _) as [cs self2]. simpl in *.
  by apply Hc, foldl_track_keyed_by_hash.
Qed.

(** In every pass, an event handed back as confirmed has left
    [pending_events] when the pass returns. *)
Lemma scan_confirmed_not_pending chain self file confirmed_events event :
  keyed_by_hash (pending_events self) →
  scan_outcome (scan_and_process_blocks chain self file) = Returned confirmed_events →
  event ∈ confirmed_events →
  transactionHash event ∉
    (pending_events (scan_self (scan_and_process_blocks chain self file))).*1.
Proof.
  intros Hwf. unfold scan_and_process_blocks.
  destruct (block_number chain) as [H|]; [|done].
  destruct (_ >=? _); simpl.
  { intros [= <-] Hin. by apply elem_of_nil in Hin. }
  destruct (get_logs chain _ _) as [logs|]; simpl.
  2:{ intros [= <-] Hin. by apply elem_of_nil in Hin. }
  pose proof (foldl_track_keyed_by_hash logs _ Hwf) as [Hnd Hkey].
  rewrite check_confirmations_unfold. simpl.
  intros [= <-] (k & Hin & Hage)%confirmed_of_events.
  intros ([k' ev'] & Hk & Hin')%list_elem_of_fmap. simpl in Hk. subst k'.
  apply foldl_delitem_elem_of in Hin' as [Hin' Hno]; [|done].
  apply Hno, confirmed_of_keys. exists event. split; [|done].
  by rewrite <-(Hkey _ _ Hin).
Qed.

(** C1. A scanner at block 80 with threshold 12 sees, at height 100, the
    deposit of transaction 0xa in block 85: the pass hands the event back
    as confirmed and [pending_events] is empty when it returns, before any
    relay has been attempted. The same holds of every pass: an event handed
    back as confirmed is no longer pending. *)
Theorem confirmed_event_leaves_pending :
  let a := Scenario.deposit "0xa" 85 in
  let r := scan_and_process_blocks (Scenario.node 100 (Returned [a]))
             (Scenario.scanner_at 80 []) Missing in
  scan_outcome r = Returned [a] ∧
  pending_events (scan_self r) = [] ∧
  (∀ chain self file confirmed_events event,
     keyed_by_hash (pending_events self) →
     scan_outcome (scan_and_process_blocks chain self file) = Returned confirmed_events →
     event ∈ confirmed_events →
     ¬ transactionHash event ∈
         (pending_events (scan_self (scan_and_process_blocks chain self file))).*1).
Proof.
  split_and!; [reflexivity..|].
  intros chain self file confirmed_events event. apply scan_confirmed_not_pending.
Qed.

(** The scenario of C4 as a whole pass: at height 100 the event of block
    85 is handed back and the event of block 95 is all that stays pending. *)
Example scan_confirms_by_age :
  let a := Scenario.deposit "0xa" 85 in
  let b := Scenario.deposit "0xb" 95 in
  let r := scan_and_process_blocks (Scenario.node 100 (Returned []))
             (Scenario.scanner_at 99 [("0xa"%string, a); ("0xb"%string, b)]) Missing in
  scan_outcome r = Returned [a] ∧ pending_events (scan_self r) = [("0xb"%string, b)].
Proof. split; reflexivity. Qed.

(** C3, as the claim has it, fails: from block 50 at height 500 the pass
    asks for the logs of blocks 51 to 151 and moves to block 151. *)
Lemma scan_chunk_counterexample :
  let r := scan_and_process_blocks (Scenario.node 500 (Returned []))
             (Scenario.scanner_at 50 []) Missing in
  ¬ (scanned_ranges (scan_trace r) = [(50 + 1, Z.min 500 (50 + 100))] ∧
     last_scanned_block (scan_self r) = Z.min 500 (50 + 100)).
Proof. intros r [Hrange Hcursor]. vm_compute in Hcursor. discriminate. Qed.

(** C3, amended. A pass that finds new blocks asks for the logs of exactly
    the blocks from [cursor + 1] to [min H (cursor + 1 + 100)], at most 101
    blocks, and when the logs arrive the cursor, in memory and in the state
    file, moves to the end of that range. *)
Theorem scan_covers_chunk (chain : SourceChain) (self : EventScanner)
    (file : StateFile) (H : Z) :
  block_number chain = Returned H →
  last_scanned_block self < H →
  let from_block := last_scanned_block self + 1 in
  let to_block := Z.min H (from_block + 100) in
  let r := scan_and_process_blocks chain self file in
  scanned_ranges (scan_trace r) = [(from_block, to_block)] ∧
  from_block ≤ to_block ≤ last_scanned_block self + 101 ∧
  (∀ logs, get_logs chain from_block to_block = Returned logs →
     last_scanned_block (scan_self r) = to_block ∧
     scan_file r = _save_last_scanned_block to_block).
Proof.
  intros Hbn Hlt from_block to_block r. subst r.
  rewrite (scan_new_blocks _ _ _ H) by done. cbv zeta.
  fold from_block. fold to_block. split_and!.
  - by destruct (get_logs chain from_block to_block).
  - subst to_block from_block. lia.
  - subst to_block from_block. lia.
  - intros logs ->. done.
Qed.

(** The scenario of C3 on the code: cursor 50, height 500. *)
Lemma scan_covers_chunk_witness :
  let r := scan_and_process_blocks (Scenario.node 500 (Returned []))
             (Scenario.scanner_at 50 []) Missing in
  scanned_ranges (scan_trace r) = [(51, 151)] ∧
  last_scanned_block (scan_self r) = 151 ∧
  scan_file r = _save_last_scanned_block 151.
Proof.
  intros r.
  destruct (scan_covers_chunk (Scenario.node 500 (Returned []))
              (Scenario.scanner_at 50 []) Missing 500) as (Hrange & _ & Hcursor).
  - reflexivity.
  - simpl. lia.
  - split; [exact Hrange|]. apply (Hcursor []). reflexivity.
Defined.

(** C5, as the claim has it, fails: when [get_logs] raises the pass does
    not fail, it returns the empty list. *)
Lemma fetch_failure_counterexample :
  let r := scan_and_process_blocks (Scenario.node 500 (Raised (RpcError "timeout")))
             (Scenario.scanner_at 50 []) Missing in
  scan_outcome r = Returned [] ∧ ¬ ∃ e, scan_outcome r = Raised e.
Proof. split; [reflexivity|]. intros [e He]. discriminate He. Qed.

(** C5, amended. When [get_logs] raises, the pass leaves the scanner (its
    cursor and its pending events) and the state file as they were, and
    returns the empty list, as a pass without confirmed events does. *)
Theorem fetch_failure_aborts_pass (chain : SourceChain) (self : EventScanner)
    (file : StateFile) (H : Z) (e : exn) :
  block_number chain = Returned H →
  last_scanned_block self < H →
  get_logs chain (last_scanned_block self + 1)
    (Z.min H (last_scanned_block self + 1 + 100)) = Raised e →
  let r := scan_and_process_blocks chain self file in
  scan_self r = self ∧ scan_file r = file ∧ scan_outcome r = Returned [].
Proof.
  intros Hbn Hlt Hlogs r. subst r.
  rewrite (scan_new_blocks _ _ _ H) by done. cbv zeta. by rewrite Hlogs.
Qed.

Lemma fetch_failure_aborts_pass_witness :
  let self := Scenario.scanner_at 50 [("0xa"%string, Scenario.deposit "0xa" 45)] in
  let r := scan_and_process_blocks (Scenario.node 500 (Raised (RpcError "timeout")))
             self (_save_last_scanned_block 50) in
  scan_self r = self ∧ scan_file r = _save_last_scanned_block 50 ∧
  scan_outcome r = Returned [].
Proof.
  intros self r.
  apply (fetch_failure_aborts_pass (Scenario.node 500 (Raised (RpcError "timeout")))
           self (_save_last_scanned_block 50) 500 (RpcError "timeout")).
  - reflexivity.
  - simpl. lia.
  - reflexivity.
Defined.

(** ** Start-up *)



(** ** The relayer *)

Ltac result_simpl :=
  unfold mbind, mret, Result_bind, Result_ret, try_except, getitem in *; simpl in *.

(** Case analysis on the first call of a chain of fallible calls. *)
Ltac step_result :=
  match goal with
  | |- context [match ?m with Returned _ => _ | Raised _ => _ end] =>
      lazymatch m with
      | context [match _ with Returned _ => _ | Raised _ => _ end] => fail
      | context [match _ with Some _ => _ | None => _ end] => fail
      | _ => let E := fresh "Hstep" in destruct m eqn:E; simpl
      end
  | |- context [match ?m with Some _ => _ | None => _ end] =>
      lazymatch m with
      | context [match _ with Returned _ => _ | Raised _ => _ end] => fail
      | context [match _ with Some _ => _ | None => _ end] => fail
      | _ => let E := fresh "Hstep" in destruct m eqn:E; simpl
      end
  end.

(** [relay_mint_transaction] always returns. *)
Lemma relay_mint_transaction_returns self w3 event :
  ∃ r, relay_mint_transaction self w3 event = Returned r.
Proof.
  unfold relay_mint_transaction. result_simpl.
  repeat step_result; try case_decide; eauto.
Qed.

(** C10. [relay_mint_transaction] never raises; it returns the hash that
    [send_raw_transaction] gave exactly when every step went through and
    the receipt has status 1, and [None] in every other case. *)
Theorem relay_mint_transaction_total (self : TransactionRelayer) (w3 : DestChain)
    (event : LogReceipt) :
  (∀ e, relay_mint_transaction self w3 event ≠ Raised e) ∧
  (∀ h, relay_mint_transaction self w3 event = Returned (Some h) ↔
     ∃ recipient amount nonce call gasPrice tx_data signed_tx receipt,
       args event !! "recipient"%string = Some recipient ∧
       args event !! "amount"%string = Some amount ∧
       get_transaction_count w3 (address self) = Returned nonce ∧
       mintBridgedTokens w3 recipient amount (transactionHash event) = Returned call ∧
       gas_price w3 = Returned gasPrice ∧
       build_transaction w3 call
         {| tx_from := address self; tx_nonce := nonce;
            tx_gas := 200000; tx_gasPrice := gasPrice |} = Returned tx_data ∧
       sign_transaction w3 tx_data (account_key self) = Returned signed_tx ∧
       send_raw_transaction w3 signed_tx = Returned h ∧
       wait_for_transaction_receipt w3 h 120 = Returned receipt ∧
       status receipt = 1) ∧
  (relay_mint_transaction self w3 event = Returned None ∨
   ∃ h, relay_mint_transaction self w3 event = Returned (Some h)).
Proof.
  split_and!.
  - intros e He. destruct (relay_mint_transaction_returns self w3 event) as [r Hr].
    congruence.
  - intros h. unfold relay_mint_transaction. result_simpl. split.
    + repeat step_result; try case_decide; intros ?; simplify_eq.
      do 8 eexists. split_and!; eauto.
    + intros (recipient & amount & nonce & call & gasPrice & tx_data & signed_tx
              & receipt & -> & -> & -> & -> & -> & -> & -> & -> & -> & Hst).
      simpl. by case_decide.
  - destruct (relay_mint_transaction_returns self w3 event) as [[h|] Hr]; eauto.
Qed.

(** A missing argument, a failed submission and a reverted receipt all
    come back as [None]. *)
Example relay_without_recipient :
  relay_mint_transaction Scenario.relayer (Scenario.dest_node (Returned "0xd1"%string) 1)
    {| transactionHash := "0xa"; blockNumber := 85; args := ∅ |} = Returned None.
Proof. reflexivity. Qed.

Example relay_submission_fails :
  relay_mint_transaction Scenario.relayer
    (Scenario.dest_node (Raised (RpcError "connection reset")) 1)
    (Scenario.deposit "0xa" 85) = Returned None.
Proof. reflexivity. Qed.

Example relay_reverted :
  relay_mint_transaction Scenario.relayer (Scenario.dest_node (Returned "0xd1"%string) 0)
    (Scenario.deposit "0xa" 85) = Returned None.
Proof. reflexivity. Qed.

Example relay_succeeds :
  relay_mint_transaction Scenario.relayer (Scenario.dest_node (Returned "0xd1"%string) 1)
    (Scenario.deposit "0xa" 85) = Returned (Some "0xd1"%string).
Proof. reflexivity. Qed.

(** ** The health checker *)

Lemma run_checks_raises ticks self e :
  (Health._run_checks ticks self).1 = Raised e →
  e = OverflowError ∧ Health.TIMEOUT_MAX < Health.interval self.
Proof.
  revert self. induction ticks as [|t ticks IH]; intros self; simpl.
  - by destruct (Health._stop_event self).
  - destruct (Health._stop_event self); [done|].
    unfold Health.check. destruct (Health.probe t) as [[]|e']; simpl;
      unfold Health.wait; destruct (Health.stop_requested t);
      repeat case_decide; simpl;
      try (intros [= <-]; done); intros [-> Hmax]%IH; done.
Qed.

(** C9. In the loop of [_run_checks] a probe that raises is treated as a
    probe that returns false: after its turn the status is unhealthy, and
    the loop goes on (or ends) exactly as if the probe had returned false,
    so the exception of a probe never leaves the loop. The one exception
    the loop can raise is the [OverflowError] of its own wait, for an
    interval above [TIMEOUT_MAX]. [start] leaves a checker whose thread is
    alive as it is, and [stop] leaves a checker without a live thread as it
    is. *)
Theorem health_checker_contains_failures :
  (∀ i s th e request,
     Health.status
       (Health._run_checks
          [ {| Health.probe := Raised e; Health.stop_requested := request |} ]
          {| Health.interval := i; Health.status := s;
             Health._thread := th; Health._stop_event := false |}).2
     = Health.unhealthy) ∧
  (∀ e request rest self,
     Health._run_checks
       ({| Health.probe := Raised e; Health.stop_requested := request |} :: rest) self
     = Health._run_checks
         ({| Health.probe := Returned false; Health.stop_requested := request |} :: rest)
         self) ∧
  (∀ ticks self e,
     (Health._run_checks ticks self).1 = Raised e →
     e = OverflowError ∧ Health.TIMEOUT_MAX < Health.interval self) ∧
  (∀ i s ev,
     let self := {| Health.interval := i; Health.status := s;
                    Health._thread := Some true; Health._stop_event := ev |} in
     Health.start self = self) ∧
  (∀ joined i s ev,
     let never_started := {| Health.interval := i; Health.status := s;
                             Health._thread := None; Health._stop_event := ev |} in
     let ended := {| Health.interval := i; Health.status := s;
                     Health._thread := Some false; Health._stop_event := ev |} in
     Health.stop joined never_started = never_started ∧
     Health.stop joined ended = ended).
Proof.
  split_and!; try done.
  - intros i s th e request. simpl. unfold Health.wait.
    destruct request; simpl; repeat case_decide; done.
  - apply run_checks_raises.
Qed.

(** C9 on two checkers: with an interval of 30 seconds a probe that raises
    leaves the status unhealthy and the loop waiting for its next turn;
    with an interval of 2^64 seconds the status is unhealthy as well and
    the wait raises. *)
Lemma health_checker_contains_failures_witness :
  let t := {| Health.probe := Raised (RpcError "refused");
              Health.stop_requested := Health.NoStop |} in
  let checker i := {| Health.interval := i; Health.status := Health.healthy;
                      Health._thread := Some true; Health._stop_event := false |} in
  Health._run_checks [t] (checker 30)
  = (Returned Health.Waiting, Health.set_status Health.unhealthy (checker 30)) ∧
  Health.status (Health._run_checks [t] (checker (2 ^ 64))).2 = Health.unhealthy ∧
  (Health._run_checks [t] (checker (2 ^ 64))).1 = Raised OverflowError ∧
  Health.TIMEOUT_MAX < Health.interval (checker (2 ^ 64)).
Proof.
  intros t checker.
  destruct health_checker_contains_failures as (Hstatus & _ & Hraise & _).
  split_and!; [reflexivity|apply Hstatus|reflexivity|].
  apply (Hraise [t] (checker (2 ^ 64)) OverflowError). reflexivity.
Defined.

(** ** Health gating *)



Lemma time_sleep_raises seconds :
  seconds < 0 ∨ SLEEP_MAX < seconds → ∃ e, time_sleep seconds = Raised e.
Proof.
  intros ?. unfold time_sleep. case_decide; [by eexists|].
  rewrite decide_True by lia. by eexists.
Qed.



(** ** The idempotency ledger *)

Lemma recorded_cons_other a tr :
  (∀ tx, a ≠ CacheAdd tx) → recorded (a :: tr) = recorded tr.
Proof. intros Ha. destruct a; try done. by destruct (Ha source_tx_hash). Qed.

Lemma relayed_cons_other a tr :
  (∀ tx r, a ≠ Relay tx r) → relayed (a :: tr) = relayed tr.
Proof. intros Ha. destruct a; try done. by destruct (Ha source_tx_hash relay_tx_hash). Qed.

Lemma guarded_app L t1 t2 :
  guarded L t1 → guarded (L ∪ list_to_set (recorded t1)) t2 → guarded L (t1 ++ t2).
Proof.
  induction 1 as [L|L a tr Hr Ha Hg IH|L tx r tr Hin Hr Hg IH|L tx r tr Hin Hr Hg IH];
    intros H2.
  - change (recorded []) with (@nil string) in H2.
    by rewrite list_to_set_nil, union_empty_r_L in H2.
  - apply guarded_other; [done..|]. apply IH. by rewrite recorded_cons_other in H2.
  - apply guarded_failed; [done..|]. by apply IH.
  - apply guarded_relayed; [done..|]. apply IH.
    change (recorded (Relay tx r :: CacheAdd tx :: tr)) with (tx :: recorded tr) in H2.
    by replace ({[tx]} ∪ L ∪ list_to_set (recorded tr))
      with (L ∪ list_to_set (tx :: recorded tr)) by set_solver.
Qed.

Lemma guarded_relayed_fresh L tr tx : guarded L tr → tx ∈ relayed tr → tx ∉ L.
Proof.
  induction 1 as [L|L a tr Hr Ha Hg IH|L tx0 r tr Hin Hr Hg IH|L tx0 r tr Hin Hr Hg IH].
  - by intros ?%elem_of_nil.
  - rewrite relayed_cons_other by done. auto.
  - intros [->|?]%elem_of_cons; auto.
  - intros [->|?]%elem_of_cons; [done|]. set_solver.
Qed.

Lemma guarded_recorded_fresh L tr tx : guarded L tr → tx ∈ recorded tr → tx ∉ L.
Proof.
  induction 1 as [L|L a tr Hr Ha Hg IH|L tx0 r tr Hin Hr Hg IH|L tx0 r tr Hin Hr Hg IH].
  - by intros ?%elem_of_nil.
  - rewrite recorded_cons_other by done. auto.
  - done.
  - intros [->|?]%elem_of_cons; [done|]. set_solver.
Qed.

Lemma guarded_recorded_NoDup L tr : guarded L tr → NoDup (recorded tr).
Proof.
  induction 1 as [L|L a tr Hr Ha Hg IH|L tx0 r tr Hin Hr Hg IH|L tx0 r tr Hin Hr Hg IH].
  - apply NoDup_nil_2.
  - by rewrite recorded_cons_other.
  - done.
  - apply (NoDup_cons_2 tx0 (recorded tr)); [|done].
    intros Hrec%(guarded_recorded_fresh _ _ _ Hg). set_solver.
Qed.

Lemma guarded_after_success L tr t1 tx r t2 :
  guarded L tr → tr = t1 ++ Relay tx r :: t2 → truthy r = true → tx ∉ relayed t2.
Proof.
  intros Hg. revert t1.
  induction Hg as [L|L a tr Hr Ha Hg IH|L tx0 r0 tr Hin Hr Hg IH|L tx0 r0 tr Hin Hr Hg IH];
    intros t1 Heq Htruthy.
  - by destruct t1.
  - destruct t1 as [|a' t1]; simplify_eq/=; [by destruct (Hr tx r)|eauto].
  - destruct t1 as [|a' t1]; simplify_eq/=; [congruence|eauto].
  - destruct t1 as [|a' [|a'' t1]]; simplify_eq/=.
    + intros Hrel%(guarded_relayed_fresh _ _ _ Hg). set_solver.
    + eauto.
Qed.

Lemma relay_confirmed_guarded relayer dest confirmed_events cache :
  guarded cache (relay_confirmed relayer dest confirmed_events cache).2 ∧
  (relay_confirmed relayer dest confirmed_events cache).1.2 =
    cache ∪ list_to_set (recorded (relay_confirmed relayer dest confirmed_events cache).2).
Proof.
  revert cache. induction confirmed_events as [|event rest IH]; intros cache; simpl.
  - split; [constructor|set_solver].
  - case_decide as Hin; [done|].
    destruct (relay_mint_transaction relayer (dest event) event) as [r|e]; simpl.
    2:{ split; [constructor|set_solver]. }
    destruct (truthy r) eqn:Hr.
    + destruct (IH ({[transactionHash event]} ∪ cache)) as [Hg Hc].
      destruct (relay_confirmed _ _ _ _) as [[res cache'] tr]. simpl in *. split.
      * by apply guarded_relayed.
      * rewrite Hc. replace (recorded (Relay (transactionHash event) r
                               :: CacheAdd (transactionHash event) :: tr))
          with (transactionHash event :: recorded tr) by done.
        set_solver.
    + destruct (IH cache) as [Hg Hc].
      destruct (relay_confirmed _ _ _ _) as [[res cache'] tr]. simpl in *. split.
      * by apply guarded_failed.
      * done.
Qed.

Lemma scan_trace_quiet chain self file L :
  guarded L (scan_trace (scan_and_process_blocks chain self file)) ∧
  recorded (scan_trace (scan_and_process_blocks chain self file)) = [] ∧
  relayed (scan_trace (scan_and_process_blocks chain self file)) = [].
Proof.
  unfold scan_and_process_blocks.
  destruct (block_number chain); [destruct (_ >=? _)|];
    [|destruct (get_logs _ _ _); [destruct (_check_confirmations _ _)|]|];
    simpl; (split; [|done]); repeat (apply guarded_other; [done..|]); constructor.
Qed.

Lemma guarded_sleep L n : guarded L [Sleep n].
Proof. apply guarded_other; [done..|constructor]. Qed.

Lemma recorded_app t1 t2 : recorded (t1 ++ t2) = recorded t1 ++ recorded t2.
Proof. apply omap_app. Qed.

Lemma relayed_app t1 t2 : relayed (t1 ++ t2) = relayed t1 ++ relayed t2.
Proof. apply omap_app. Qed.

Lemma cycle_guarded c self file :
  guarded (processed_txs_cache self) (cycle c self file).2 ∧
  processed_txs_cache (cycle c self file).1.1 =
    processed_txs_cache self ∪ list_to_set (recorded (cycle c self file).2) ∧
  config (cycle c self file).1.1 = config self ∧
  tx_relayer (cycle c self file).1.1 = tx_relayer self.
Proof.
  unfold cycle. destruct (_ || _); simpl.
  { split_and!; [apply guarded_sleep|set_solver|done..]. }
  destruct (scan_trace_quiet (source c) (event_scanner self) file (processed_txs_cache self))
    as (Hq & Hrec & _).
  destruct (scan_outcome _) as [confirmed_events|e]; simpl.
  2:{ rewrite recorded_app, Hrec. split_and!; [|set_solver|done..].
      apply guarded_app; [done|apply guarded_sleep]. }
  destruct (relay_confirmed_guarded (tx_relayer self) (dest c) confirmed_events
              (processed_txs_cache self)) as [Hg Hc].
  destruct (relay_confirmed _ _ _ _) as [[res cache'] tr]. simpl in Hg, Hc.
  assert (∀ n, guarded (processed_txs_cache self)
                 (scan_trace (scan_and_process_blocks (source c) (event_scanner self) file)
                  ++ tr ++ [Sleep n])) as Hall.
  { intros n. apply guarded_app; [done|]. rewrite Hrec.
    replace (processed_txs_cache self ∪ list_to_set []) with (processed_txs_cache self)
      by set_solver.
    apply guarded_app; [done|apply guarded_sleep]. }
  assert (∀ n, recorded (scan_trace (scan_and_process_blocks (source c)
                                       (event_scanner self) file)
                         ++ tr ++ [Sleep n]) = recorded tr) as Hrecs.
  { intros n. rewrite !recorded_app, Hrec. simpl. by rewrite app_nil_r. }
  destruct res; [destruct (time_sleep _)|]; simpl; rewrite Hrecs; split_and!; auto.
Qed.

Lemma run_guarded cycles self file :
  guarded (processed_txs_cache self) (run cycles self file).2 ∧
  processed_txs_cache (run cycles self file).1.1 =
    processed_txs_cache self ∪ list_to_set (recorded (run cycles self file).2).
Proof.
  revert self file. induction cycles as [|c cycles IH]; intros self file; simpl.
  - split; [constructor|set_solver].
  - destruct (cycle_guarded c self file) as (Hg & Hc & _).
    destruct (cycle c self file) as [[self1 file1] tr1]. simpl in Hg, Hc.
    destruct (IH self1 file1) as [Hg2 Hc2].
    destruct (run cycles self1 file1) as [[self2 file2] tr2]. simpl in *. split.
    + apply guarded_app; [done|]. by rewrite <-Hc.
    + rewrite Hc2, Hc, recorded_app, list_to_set_app_L. set_solver.
Qed.

(** C2, as the claim has it, fails: transaction 0xa is relayed and
    recorded, the process restarts with an empty ledger, the node reports
    the transaction again (in block 110, after a reorganisation), and it
    is relayed and recorded a second time. Without the restart the second
    report is skipped. *)
Lemma restart_double_relay_counterexample :
  let c1 := Scenario.healthy_cycle 100 (Returned [Scenario.deposit "0xa" 85])
              (Returned "0xd1"%string) in
  let c2 := Scenario.healthy_cycle 130 (Returned [Scenario.deposit "0xa" 110])
              (Returned "0xd2"%string) in
  let tr := (execute [Iterate c1; Restart (Returned 100); Iterate c2]
               (Scenario.processor_at 80) Missing).2 in
  relayed tr = ["0xa"; "0xa"]%string ∧
  recorded tr = ["0xa"; "0xa"]%string ∧
  ¬ NoDup (recorded tr) ∧
  relayed (execute [Iterate c1; Iterate c2] (Scenario.processor_at 80) Missing).2
    = ["0xa"%string].
Proof.
  intros c1 c2 tr.
  assert (Hrec : recorded tr = ["0xa"; "0xa"]%string) by by vm_compute.
  split_and!; [by vm_compute|done| |by vm_compute].
  rewrite Hrec. intros [Hin _]%NoDup_cons. apply Hin, elem_of_cons. by left.
Qed.

(** C2, amended. Within one run of the process (any number of loop
    iterations, no restart) every identifier is added to
    [processed_txs_cache] at most once; the cache grows by exactly the
    identifiers added; an identifier already in the cache is never handed
    to the relayer; and after a relay that succeeded its identifier is
    never handed to the relayer again. *)
Theorem single_run_no_double_relay (cycles : list Cycle) (self : CrossChainProcessor)
    (file : StateFile) :
  let tr := (run cycles self file).2 in
  NoDup (recorded tr) ∧
  processed_txs_cache (run cycles self file).1.1 =
    processed_txs_cache self ∪ list_to_set (recorded tr) ∧
  (∀ tx, tx ∈ processed_txs_cache self → tx ∉ relayed tr) ∧
  (∀ t1 tx r t2, tr = t1 ++ Relay tx r :: t2 → truthy r = true → tx ∉ relayed t2).
Proof.
  intros tr. destruct (run_guarded cycles self file) as [Hg Hc]. fold tr in Hg, Hc.
  split_and!.
  - by eapply guarded_recorded_NoDup.
  - done.
  - intros tx Hin Hrel. by eapply guarded_relayed_fresh.
  - intros t1 tx r t2 Heq Hr. by eapply guarded_after_success.
Qed.

(** ** Relay failures *)

(** A relay that did not succeed leaves [processed_txs_cache] as it was. *)
Lemma failed_relay_keeps_cache relayer dest event cache r :
  transactionHash event ∉ cache →
  relay_mint_transaction relayer (dest event) event = Returned r →
  truthy r = false →
  relay_confirmed relayer dest [event] cache
  = (Returned (), cache, [Relay (transactionHash event) r]).
Proof. intros Hin Hr Ht. simpl. case_decide; [done|]. by rewrite Hr, Ht. Qed.

Lemma track_keys pending event k :
  k ∈ (track pending event).*1 → k ∈ pending.*1 ∨ k = transactionHash event.
Proof.
  unfold track, Dict.contains. case_bool_decide; [auto|].
  rewrite setitem_fresh, fmap_app, elem_of_app by done.
  intros [?|Heq%list_elem_of_singleton]; subst; auto.
Qed.

Lemma foldl_track_keys logs pending k :
  k ∈ (foldl track pending logs).*1 →
  k ∈ pending.*1 ∨ k ∈ transactionHash <$> logs.
Proof.
  revert pending. induction logs as [|event logs IH]; intros pending; csimpl; [auto|].
  rewrite elem_of_cons.
  intros [[?| ->]%track_keys|?]%IH; auto.
Qed.

Lemma foldl_delitem_keys {V} ks (d : list (string * V)) k :
  k ∈ (foldl (λ d k, Dict.delitem k d) d ks).*1 → k ∈ d.*1.
Proof.
  revert d. induction ks as [|k0 ks IH]; intros d; simpl; [done|].
  intros Hin%IH. by eapply delitem_keys.
Qed.

Lemma relay_confirmed_relayed relayer dest confirmed_events cache tx :
  tx ∈ relayed (relay_confirmed relayer dest confirmed_events cache).2 →
  tx ∈ transactionHash <$> confirmed_events.
Proof.
  revert cache. induction confirmed_events as [|event rest IH]; intros cache; csimpl.
  - by intros ?%elem_of_nil.
  - rewrite elem_of_cons. case_decide; [eauto|].
    destruct (relay_mint_transaction relayer (dest event) event) as [r|e]; simpl.
    2:{ by intros ?%elem_of_nil. }
    destruct (truthy r).
    + specialize (IH ({[transactionHash event]} ∪ cache)).
      destruct (relay_confirmed _ _ _ _) as [[res cache'] tr]. simpl in *.
      intros [->|?]%elem_of_cons; auto.
    + specialize (IH cache).
      destruct (relay_confirmed _ _ _ _) as [[res cache'] tr]. simpl in *.
      intros [->|?]%elem_of_cons; auto.
Qed.

(** A pass neither confirms nor starts tracking a transaction that is not
    pending and that the node does not report. *)
Lemma scan_ignores_unreported chain self file tx :
  keyed_by_hash (pending_events self) →
  tx ∉ (pending_events self).*1 →
  (∀ f t logs, get_logs chain f t = Returned logs → tx ∉ transactionHash <$> logs) →
  let r := scan_and_process_blocks chain self file in
  (∀ confirmed_events,
     scan_outcome r = Returned confirmed_events →
     tx ∉ transactionHash <$> confirmed_events) ∧
  tx ∉ (pending_events (scan_self r)).*1.
Proof.
  intros Hwf Hpend Hlogs r. subst r. unfold scan_and_process_blocks.
  destruct (block_number chain) as [H|]; [|by split].
  destruct (_ >=? _); simpl.
  { split; [|done]. intros ? [= <-]. by intros ?%elem_of_nil. }
  destruct (get_logs chain _ _) as [logs|] eqn:Hget; simpl.
  2:{ split; [|done]. intros ? [= <-]. by intros ?%elem_of_nil. }
  pose proof (foldl_track_keyed_by_hash logs _ Hwf) as [Hnd Hkey].
  assert (Hfresh : tx ∉ (foldl track (pending_events self) logs).*1).
  { intros [?|?]%foldl_track_keys; [done|]. by eapply Hlogs. }
  rewrite check_confirmations_unfold. simpl. split.
  - intros ? [= <-] (ev & -> & (k & Hin & _)%confirmed_of_events)%list_elem_of_fmap.
    apply Hfresh, list_elem_of_fmap. exists (k, ev). split; [|done].
    simpl. symmetry. eauto.
  - intros Hin%foldl_delitem_keys. done.
Qed.

(** An iteration does not relay a transaction that is neither pending nor
    reported, and does not start tracking it. *)
Lemma cycle_ignores_unreported c self file tx :
  keyed_by_hash (pending_events (event_scanner self)) →
  tx ∉ (pending_events (event_scanner self)).*1 →
  ¬ reports c tx →
  (tx ∉ relayed (cycle c self file).2) ∧
  (tx ∉ (pending_events (event_scanner (cycle c self file).1.1)).*1).
Proof.
  intros Hwf Hpend Hrep. unfold cycle. destruct (_ || _); simpl.
  { split; [|done]. by intros ?%elem_of_nil. }
  destruct (scan_ignores_unreported (source c) (event_scanner self) file tx)
    as [Hconf Hpend']; [done..| |].
  { intros f t logs Hget Hin. apply Hrep. by exists f, t, logs. }
  destruct (scan_trace_quiet (source c) (event_scanner self) file ∅) as (_ & _ & Hquiet).
  destruct (scan_outcome _) as [confirmed_events|e]; simpl.
  2:{ split; [|done]. rewrite relayed_app, Hquiet. by intros ?%elem_of_nil. }
  specialize (Hconf _ eq_refl).
  pose proof (relay_confirmed_relayed (tx_relayer self) (dest c) confirmed_events
                (processed_txs_cache self) tx) as Hrel.
  destruct (relay_confirmed _ _ _ _) as [[res cache'] tr]. simpl in Hrel.
  assert (∀ n, tx ∉ relayed (scan_trace (scan_and_process_blocks (source c)
                                           (event_scanner self) file)
                             ++ tr ++ [Sleep n])) as Hno.
  { intros n. rewrite !relayed_app, Hquiet. simpl. rewrite app_nil_r. auto. }
  destruct res; [destruct (time_sleep _)|]; simpl; auto.
Qed.

(** Once an event has left [pending_events], no later iteration hands it
    to the relayer unless the source node reports its transaction again. *)
Lemma run_ignores_unreported cycles self file tx :
  keyed_by_hash (pending_events (event_scanner self)) →
  tx ∉ (pending_events (event_scanner self)).*1 →
  Forall (λ c, ¬ reports c tx) cycles →
  tx ∉ relayed (run cycles self file).2.
Proof.
  revert self file. induction cycles as [|c cycles IH]; intros self file Hwf Hpend Hall; simpl.
  { by intros ?%elem_of_nil. }
  apply Forall_cons in Hall as [Hc Hall].
  destruct (cycle_ignores_unreported c self file tx) as [Hrel Hpend']; [done..|].
  assert (Hwf' : keyed_by_hash (pending_events (event_scanner (cycle c self file).1.1))).
  { unfold cycle. destruct (_ || _); [done|].
    pose proof (scan_keyed_by_hash (source c) (event_scanner self) file Hwf).
    destruct (scan_outcome _); [|done].
    destruct (relay_confirmed _ _ _ _) as [[[] ?] ?]; [by destruct (time_sleep _)|done]. }
  destruct (cycle c self file) as [[self1 file1] tr1]. simpl in *.
  specialize (IH self1 file1 Hwf' Hpend' Hall).
  destruct (run cycles self1 file1) as [[self2 file2] tr2]. simpl in *.
  rewrite relayed_app, elem_of_app. tauto.
Qed.

(** C6. The deposit of transaction 0xa (block 85) is confirmed at height
    100 and its relay fails because the submission raises. After that
    iteration the event is not in [pending_events] and the cache is empty;
    the next iteration scans block 101 and hands nothing to the relayer;
    and no sequence of later iterations hands 0xa to the relayer unless the
    source node reports the transaction anew: the failed relay is not
    attempted again. *)
Theorem failed_relay_is_not_retried :
  let c1 := Scenario.healthy_cycle 100 (Returned [Scenario.deposit "0xa" 85])
              (Raised (RpcError "connection reset")) in
  let c2 := Scenario.healthy_cycle 101 (Returned []) (Returned "0xd1"%string) in
  let s1 := cycle c1 (Scenario.processor_at 80) Missing in
  let s2 := cycle c2 s1.1.1 s1.1.2 in
  s1.2 = [ReadBlockNumber; GetLogs 81 100; SaveState 100; Relay "0xa" None; Sleep 15] ∧
  pending_events (event_scanner s1.1.1) = [] ∧
  processed_txs_cache s1.1.1 = ∅ ∧
  s2.2 = [ReadBlockNumber; GetLogs 101 101; SaveState 101; Sleep 15] ∧
  (∀ cycles, Forall (λ c, ¬ reports c "0xa") cycles →
             ¬ "0xa"%string ∈ relayed (run cycles s1.1.1 s1.1.2).2).
Proof.
  intros c1 c2 s1 s2.
  assert (Hpend : pending_events (event_scanner s1.1.1) = []) by by vm_compute.
  split_and!; [by vm_compute|done|by vm_compute|by vm_compute|].
  intros cycles Hall. apply run_ignores_unreported; [| |done].
  - rewrite Hpend. split; [apply NoDup_nil_2|]. by intros k ev ?%elem_of_nil.
  - rewrite Hpend. apply not_elem_of_nil.
Qed.

(** * Further properties of the code *)

(** ** The confirmation pass splits the pending events *)

Lemma confirmed_of_filter c H items :
  confirmed_of c H items =
  ((filter (λ p, c ≤ H - blockNumber p.2) items).*2,
   (filter (λ p, c ≤ H - blockNumber p.2) items).*1).
Proof.
  induction items as [|[k ev] items IH]; [done|].
  cbn [confirmed_of]. rewrite IH, filter_cons. simpl.
  destruct (Z.geb_spec (H - blockNumber ev) c); case_decide; done || lia.
Qed.

Lemma foldl_delitem_cons_ne {V} ks k (v : V) d :
  k ∉ ks →
  foldl (λ d k, Dict.delitem k d) ((k, v) :: d) ks
  = (k, v) :: foldl (λ d k, Dict.delitem k d) d ks.
Proof.
  revert d. induction ks as [|k0 ks IH]; intros d Hk; simpl; [done|].
  apply not_elem_of_cons in Hk as [Hne Hk]. case_decide; [congruence|]. by apply IH.
Qed.

Lemma foldl_delitem_filter {V} (P : string * V → Prop) `{∀ x, Decision (P x)} d :
  NoDup d.*1 →
  foldl (λ d k, Dict.delitem k d) d (filter P d).*1 = filter (λ x, ¬ P x) d.
Proof.
  induction d as [|[k v] d IH]; [done|].
  intros [Hk Hnd]%NoDup_cons. rewrite !filter_cons.
  destruct (decide (P (k, v))) as [HP|HP].
  - rewrite decide_False by tauto. simpl. rewrite decide_True by done. by apply IH.
  - rewrite decide_True by done. rewrite foldl_delitem_cons_ne; [by rewrite IH|].
    intros ([k' v'] & -> & Hin%list_elem_of_filter)%list_elem_of_fmap.
    apply Hk. apply list_elem_of_fmap. exists (k', v'). tauto.
Qed.

(** X1. [_check_confirmations] splits the pending events in two without
    losing, duplicating or reordering any: it hands back those whose age
    has reached the threshold and keeps the others. *)
Theorem check_confirmations_partition (H : Z) (self : EventScanner) :
  NoDup (pending_events self).*1 →
  (_check_confirmations H self).1 =
    (filter (λ p, confirmations self ≤ H - blockNumber p.2) (pending_events self)).*2 ∧
  pending_events (_check_confirmations H self).2 =
    filter (λ p, H - blockNumber p.2 < confirmations self) (pending_events self) ∧
  (pending_events self).*2 ≡ₚ
    (_check_confirmations H self).1 ++ (pending_events (_check_confirmations H self).2).*2.
Proof.
  intros Hnd. rewrite check_confirmations_unfold, confirmed_of_filter. simpl.
  rewrite foldl_delitem_filter by done.
  assert (filter (λ p : string * LogReceipt, ¬ confirmations self ≤ H - blockNumber p.2)
            (pending_events self)
          = filter (λ p, H - blockNumber p.2 < confirmations self) (pending_events self))
    as ->.
  { apply list_filter_iff. intros p. lia. }
  split_and!; [done..|].
  rewrite <-fmap_app. apply fmap_Permutation. symmetry.
  rewrite <-(filter_app_complement (λ p, confirmations self ≤ H - blockNumber p.2)
               (pending_events self)) at 3.
  apply Permutation_app_head. erewrite list_filter_iff; [done|]. intros p. simpl. lia.
Qed.

Lemma check_confirmations_partition_witness :
  let a := Scenario.deposit "0xa" 85 in
  let b := Scenario.deposit "0xb" 95 in
  let c := Scenario.deposit "0xc" 70 in
  let self := Scenario.scanner_at 99
                [("0xa"%string, a); ("0xb"%string, b); ("0xc"%string, c)] in
  (_check_confirmations 100 self).1 = [a; c] ∧
  pending_events (_check_confirmations 100 self).2 = [("0xb"%string, b)].
Proof.
  intros a b c self.
  destruct (check_confirmations_partition 100 self) as (Hc & Hp & _).
  { apply (bool_decide_unpack _). vm_compute. exact I. }
  rewrite Hc, Hp. split; reflexivity.
Defined.

(** ** Tracking new logs *)

Lemma foldl_track_split (pending : list (string * LogReceipt)) (logs : list LogReceipt) :
  ∃ new,
    foldl track pending logs = pending ++ new ∧
    (∀ k ev, (k, ev) ∈ new →
             ev ∈ logs ∧ k = transactionHash ev ∧ ¬ k ∈ pending.*1) ∧
    (∀ ev, ev ∈ logs → transactionHash ev ∈ (pending ++ new).*1).
Proof.
  revert pending. induction logs as [|event logs IH]; intros pending; simpl.
  { exists []. rewrite app_nil_r. split_and!; [done|..].
    - by intros k ev ?%elem_of_nil.
    - by intros ev ?%elem_of_nil. }
  destruct (IH (track pending event)) as (new & Heq & Hnew & Hall).
  unfold track, Dict.contains in *. case_bool_decide as Hin.
  - exists new. split_and!; [done|..].
    + intros k ev Hk. destruct (Hnew k ev Hk) as (? & ? & ?).
      split_and!; [by right|done..].
    + intros ev [->|?]%elem_of_cons; [|by auto].
      rewrite fmap_app. apply elem_of_app. by left.
  - rewrite setitem_fresh in * by done.
    exists ((transactionHash event, event) :: new). split_and!.
    + by rewrite Heq, <-app_assoc.
    + intros k ev [[= -> ->]|Hk]%elem_of_cons; [split_and!; [by left|done..]|].
      destruct (Hnew k ev Hk) as (? & ? & Hfresh).
      split_and!; [by right|done|]. intros ?. apply Hfresh.
      rewrite fmap_app. apply elem_of_app. by left.
    + intros ev [->|Hev]%elem_of_cons.
      * rewrite fmap_app, fmap_cons. apply elem_of_app. right. by left.
      * specialize (Hall ev Hev). by rewrite <-app_assoc in Hall.
Qed.

(** X2. The loop over the fetched logs only appends to [pending_events]:
    the entries already there keep their place and their event, every entry
    added is a log of the batch under its own hash, and after the loop the
    transaction of every log of the batch is tracked. *)
Theorem tracking_appends (pending : list (string * LogReceipt)) (logs : list LogReceipt) :
  ∃ new,
    foldl track pending logs = pending ++ new ∧
    (∀ k ev, (k, ev) ∈ new →
             ev ∈ logs ∧ k = transactionHash ev ∧ ¬ k ∈ pending.*1) ∧
    (∀ ev, ev ∈ logs → transactionHash ev ∈ (pending ++ new).*1).
Proof. apply foldl_track_split. Qed.

(** ** What a pass can change *)

(** X3. Unless the node shows new blocks and their logs are fetched, a pass
    changes neither the scanner nor the state file and confirms nothing:
    events that are old enough stay pending while the chain stands still,
    the height cannot be read or the log query fails. *)
Theorem scan_changes_only_after_fetch (chain : SourceChain) (self : EventScanner)
    (file : StateFile) :
  let r := scan_and_process_blocks chain self file in
  (∃ H logs,
     block_number chain = Returned H ∧ last_scanned_block self < H ∧
     get_logs chain (last_scanned_block self + 1)
       (Z.min H (last_scanned_block self + 1 + 100)) = Returned logs) ∨
  (scan_self r = self ∧ scan_file r = file ∧
   ∀ confirmed_events, scan_outcome r = Returned confirmed_events → confirmed_events = []).
Proof.
  intros r. subst r. unfold scan_and_process_blocks.
  destruct (block_number chain) as [H|e]; [|by right].
  destruct (Z.geb_spec (last_scanned_block self) H) as [Hge|Hlt].
  { right. split_and!; [done..|]. by intros ? [= <-]. }
  destruct (get_logs chain _ _) as [logs|e] eqn:Hlogs.
  - left. by exists H, logs.
  - right. split_and!; [done..|]. by intros ? [= <-].
Qed.

(** ** The cursor *)

Lemma check_confirmations_fields H self :
  confirmations (_check_confirmations H self).2 = confirmations self ∧
  last_scanned_block (_check_confirmations H self).2 = last_scanned_block self.
Proof. by rewrite check_confirmations_unfold. Qed.

Lemma scan_cursor chain self file :
  let r := scan_and_process_blocks chain self file in
  confirmations (scan_self r) = confirmations self ∧
  last_scanned_block self ≤ last_scanned_block (scan_self r) ∧
  ((scan_self r = self ∧ scan_file r = file) ∨
   scan_file r = _save_last_scanned_block (last_scanned_block (scan_self r))).
Proof.
  intros r. subst r. unfold scan_and_process_blocks.
  destruct (block_number chain) as [H|e]; [|by simpl; split_and!; [|lia|left]].
  destruct (Z.geb_spec (last_scanned_block self) H) as [Hge|Hlt];
    [by simpl; split_and!; [|lia|left]|].
  destruct (get_logs chain _ _) as [logs|e]; [|by simpl; split_and!; [|lia|left]].
  destruct (check_confirmations_fields H
    (set_pending_events (foldl track (pending_events self) logs) self)) as [Hc Hl].
  destruct (_check_confirmations _ _) as [cs self2]. simpl in *.
  split_and!; [done|lia|by right].
Qed.

Lemma cycle_scanner c self file :
  event_scanner (cycle c self file).1.1 = event_scanner self ∧ (cycle c self file).1.2 = file ∨
  event_scanner (cycle c self file).1.1
    = scan_self (scan_and_process_blocks (source c) (event_scanner self) file) ∧
  (cycle c self file).1.2
    = scan_file (scan_and_process_blocks (source c) (event_scanner self) file).
Proof.
  unfold cycle. destruct (_ || _); [by left|]. right.
  destruct (scan_outcome _); [|done].
  destruct (relay_confirmed _ _ _ _) as [[[] ?] ?]; [by destruct (time_sleep _)|done].
Qed.

Lemma cycle_cursor c self file :
  confirmations (event_scanner (cycle c self file).1.1) = confirmations (event_scanner self) ∧
  last_scanned_block (event_scanner self)
    ≤ last_scanned_block (event_scanner (cycle c self file).1.1) ∧
  (file_in_step self file → file_in_step (cycle c self file).1.1 (cycle c self file).1.2).
Proof.
  destruct (scan_cursor (source c) (event_scanner self) file) as (Hc & Hl & Hf).
  unfold file_in_step.
  destruct (cycle_scanner c self file) as [[-> ->]|[-> ->]]; [by split_and!; [|lia|]|].
  split_and!; [done..|]. intros Hstep. destruct Hf as [[Hs Hfile]|Hfile].
  - by rewrite Hs, Hfile.
  - by rewrite Hfile.
Qed.

(** X4. Over any number of iterations the cursor never moves backwards,
    and the loop never changes the confirmation threshold, the
    configuration or the relayer account. *)
Theorem run_cursor_monotone (cycles : list Cycle) (self : CrossChainProcessor)
    (file : StateFile) :
  last_scanned_block (event_scanner self)
    ≤ last_scanned_block (event_scanner (run cycles self file).1.1) ∧
  confirmations (event_scanner (run cycles self file).1.1)
    = confirmations (event_scanner self) ∧
  config (run cycles self file).1.1 = config self ∧
  tx_relayer (run cycles self file).1.1 = tx_relayer self.
Proof.
  revert self file. induction cycles as [|c cycles IH]; intros self file; simpl; [done|].
  destruct (cycle_cursor c self file) as (Hc & Hl & _).
  destruct (cycle_guarded c self file) as (_ & _ & Hcfg & Hrel).
  destruct (cycle c self file) as [[self1 file1] tr1]. simpl in *.
  destruct (IH self1 file1) as (Hl' & Hc' & Hcfg' & Hrel').
  destruct (run cycles self1 file1) as [[self2 file2] tr2]. simpl in *.
  split_and!; [lia|congruence..].
Qed.

Lemma run_file_in_step cycles self file :
  file_in_step self file →
  file_in_step (run cycles self file).1.1 (run cycles self file).1.2.
Proof.
  revert self file. induction cycles as [|c cycles IH]; intros self file Hstep; simpl; [done|].
  destruct (cycle_cursor c self file) as (_ & _ & Hf). specialize (Hf Hstep).
  destruct (cycle c self file) as [[self1 file1] tr1]. simpl in *.
  specialize (IH self1 file1 Hf).
  by destruct (run cycles self1 file1) as [[self2 file2] tr2].
Qed.

(** X5. If the state file holds the cursor of the scanner, it still does
    after any number of iterations: the file and the cursor in memory move
    together. *)
Theorem run_keeps_file_in_step (cycles : list Cycle) (self : CrossChainProcessor)
    (file : StateFile) :
  file_in_step self file →
  file_in_step (run cycles self file).1.1 (run cycles self file).1.2.
Proof. apply run_file_in_step. Qed.

Lemma run_keeps_file_in_step_witness :
  let s := run [Scenario.healthy_cycle 500 (Returned []) (Returned "0xd1"%string);
                Scenario.healthy_cycle 500 (Raised (RpcError "timeout")) (Returned "0xd1"%string)]
             (Scenario.processor_at 50) (_save_last_scanned_block 50) in
  file_in_step s.1.1 s.1.2 ∧ last_scanned_block (event_scanner s.1.1) = 151.
Proof.
  intros s. split; [|reflexivity].
  apply (run_keeps_file_in_step _ (Scenario.processor_at 50) (_save_last_scanned_block 50)).
  reflexivity.
Defined.

Lemma load_saved h b :
  _load_last_scanned_block (Returned h) (_save_last_scanned_block b) = Returned b.
Proof. reflexivity. Qed.

(** X6. A restart after any number of iterations resumes at the cursor
    those iterations reached, with no pending events and an empty cache
    (given that the state file held the cursor to begin with and that the
    block height can be read). *)
Theorem restart_resumes_at_cursor (cycles : list Cycle) (self : CrossChainProcessor)
    (file : StateFile) (h : Z) :
  file_in_step self file →
  CrossChainProcessor_init (config self) (tx_relayer self) (Returned h)
    (run cycles self file).1.2
  = Returned
      {| config := config self;
         processed_txs_cache := ∅;
         event_scanner :=
           {| confirmations := confirmation_blocks (config self);
              last_scanned_block :=
                last_scanned_block (event_scanner (run cycles self file).1.1);
              pending_events := [] |};
         tx_relayer := tx_relayer self |}.
Proof.
  intros Hstep. pose proof (run_file_in_step cycles self file Hstep) as Hrun.
  unfold file_in_step in Hrun. unfold CrossChainProcessor_init.
  by rewrite Hrun, load_saved.
Qed.

Lemma restart_resumes_at_cursor_witness :
  let self := Scenario.processor_at 50 in
  let s := run [Scenario.healthy_cycle 100 (Returned [Scenario.deposit "0xa" 95])
                  (Returned "0xd1"%string)] self (_save_last_scanned_block 50) in
  pending_events (event_scanner s.1.1) = [("0xa"%string, Scenario.deposit "0xa" 95)] ∧
  CrossChainProcessor_init (config self) (tx_relayer self) (Returned 120) s.1.2
  = Returned (Scenario.processor_at 100).
Proof.
  intros self s. split; [reflexivity|].
  apply (restart_resumes_at_cursor
           [Scenario.healthy_cycle 100 (Returned [Scenario.deposit "0xa" 95])
              (Returned "0xd1"%string)]
           (Scenario.processor_at 50) (_save_last_scanned_block 50) 120).
  reflexivity.
Defined.

(** ** What an iteration hands to the relayer *)

Lemma scan_confirmed_age chain self file confirmed_events event :
  scan_outcome (scan_and_process_blocks chain self file) = Returned confirmed_events →
  event ∈ confirmed_events →
  ∃ H, block_number chain = Returned H ∧
       last_scanned_block self < H ∧
       confirmations self ≤ H - blockNumber event.
Proof.
  unfold scan_and_process_blocks.
  destruct (block_number chain) as [H|]; [|done].
  destruct (Z.geb_spec (last_scanned_block self) H) as [Hge|Hlt]; simpl.
  { intros [= <-] Hin. by apply elem_of_nil in Hin. }
  destruct (get_logs chain _ _) as [logs|]; simpl.
  2:{ intros [= <-] Hin. by apply elem_of_nil in Hin. }
  rewrite check_confirmations_unfold. simpl.
  intros [= <-] (k & _ & Hage)%confirmed_of_events. eauto.
Qed.

Lemma cycle_relayed c self file :
  relayed (cycle c self file).2 = [] ∨
  _is_rpc_healthy (source_probe c) = true ∧ _is_rpc_healthy (dest_probe c) = true ∧
  ∃ confirmed_events,
    scan_outcome (scan_and_process_blocks (source c) (event_scanner self) file)
      = Returned confirmed_events ∧
    relayed (cycle c self file).2
      = relayed (relay_confirmed (tx_relayer self) (dest c) confirmed_events
                   (processed_txs_cache self)).2.
Proof.
  unfold cycle.
  destruct (_is_rpc_healthy (source_probe c)); [|by left].
  destruct (_is_rpc_healthy (dest_probe c)); [|by left]. simpl.
  destruct (scan_trace_quiet (source c) (event_scanner self) file ∅) as (_ & _ & Hquiet).
  destruct (scan_outcome _) as [confirmed_events|e]; simpl.
  2:{ left. by rewrite relayed_app, Hquiet. }
  right. split_and!; [done..|]. exists confirmed_events. split; [done|].
  destruct (relay_confirmed _ _ _ _) as [[[] cache'] tr];
    [destruct (time_sleep _)|]; simpl;
    by rewrite !relayed_app, Hquiet, app_nil_r.
Qed.

Lemma scan_confirmed_origin chain self file confirmed_events event :
  scan_outcome (scan_and_process_blocks chain self file) = Returned confirmed_events →
  event ∈ confirmed_events →
  (∃ k, (k, event) ∈ pending_events self) ∨
  ∃ H logs,
    block_number chain = Returned H ∧ last_scanned_block self < H ∧
    get_logs chain (last_scanned_block self + 1)
      (Z.min H (last_scanned_block self + 1 + 100)) = Returned logs ∧
    event ∈ logs.
Proof.
  unfold scan_and_process_blocks.
  destruct (block_number chain) as [H|]; [|done].
  destruct (Z.geb_spec (last_scanned_block self) H) as [Hge|Hlt]; simpl.
  { intros [= <-] Hin. by apply elem_of_nil in Hin. }
  destruct (get_logs chain _ _) as [logs|] eqn:Hlogs; simpl.
  2:{ intros [= <-] Hin. by apply elem_of_nil in Hin. }
  rewrite check_confirmations_unfold. simpl.
  intros [= <-] (k & Hin & _)%confirmed_of_events.
  destruct (foldl_track_split (pending_events self) logs) as (new & Heq & Hnew & _).
  rewrite Heq in Hin. apply elem_of_app in Hin as [Hin|Hin]; [by eauto|].
  right. exists H, logs. split_and!; [done..|]. by apply (Hnew k event).
Qed.

Lemma fetched_healthy c self H logs :
  _is_rpc_healthy (source_probe c) = true →
  _is_rpc_healthy (dest_probe c) = true →
  block_number (source c) = Returned H →
  last_scanned_block (event_scanner self) < H →
  get_logs (source c) (last_scanned_block (event_scanner self) + 1)
    (Z.min H (last_scanned_block (event_scanner self) + 1 + 100)) = Returned logs →
  fetched c self = logs.
Proof.
  intros Hs Hd Hbn Hlt Hlogs. unfold fetched. rewrite Hs, Hd, Hbn. simpl.
  destruct (Z.geb_spec (last_scanned_block (event_scanner self)) H); [lia|].
  by rewrite Hlogs.
Qed.

(** X7. Whatever an iteration hands to the relayer is the transaction of
    an event that its scan pass handed back as confirmed: an event that was
    pending when the iteration began or is among the logs the iteration
    fetched, and that lies at least [confirmations] blocks below the height
    read in that iteration. The transaction is not in the cache, and both
    probes were healthy. *)
Theorem cycle_relays_confirmed_only (c : Cycle) (self : CrossChainProcessor)
    (file : StateFile) (tx : string) :
  tx ∈ relayed (cycle c self file).2 →
  _is_rpc_healthy (source_probe c) = true ∧
  _is_rpc_healthy (dest_probe c) = true ∧
  ¬ tx ∈ processed_txs_cache self ∧
  ∃ H confirmed_events event,
    block_number (source c) = Returned H ∧
    scan_outcome (scan_and_process_blocks (source c) (event_scanner self) file)
      = Returned confirmed_events ∧
    event ∈ confirmed_events ∧
    transactionHash event = tx ∧
    confirmations (event_scanner self) ≤ H - blockNumber event ∧
    ((∃ k, (k, event) ∈ pending_events (event_scanner self)) ∨ event ∈ fetched c self).
Proof.
  destruct (cycle_relayed c self file) as [->|(Hs & Hd & l & Hscan & ->)].
  { by intros ?%elem_of_nil. }
  intros Hin. split_and!; [done..| |].
  - destruct (relay_confirmed_guarded (tx_relayer self) (dest c) l
                (processed_txs_cache self)) as [Hg _].
    by eapply guarded_relayed_fresh.
  - apply relay_confirmed_relayed in Hin as (event & -> & Hev)%list_elem_of_fmap.
    destruct (scan_confirmed_age _ _ _ _ _ Hscan Hev) as (H & Hbn & _ & Hage).
    exists H, l, event. split_and!; [done..|].
    destruct (scan_confirmed_origin _ _ _ _ _ Hscan Hev)
      as [?|(H' & logs & Hbn' & Hlt & Hlogs & Hlog)]; [by left|].
    right. by rewrite (fetched_healthy c self H' logs).
Qed.

Lemma cycle_relays_confirmed_only_witness :
  let c := Scenario.healthy_cycle 100
             (Returned [Scenario.deposit "0xa" 85; Scenario.deposit "0xb" 95])
             (Returned "0xd1"%string) in
  let self := Scenario.processor_at 80 in
  relayed (cycle c self Missing).2 = ["0xa"%string] ∧
  ∃ H confirmed_events event,
    block_number (source c) = Returned H ∧
    scan_outcome (scan_and_process_blocks (source c) (event_scanner self) Missing)
      = Returned confirmed_events ∧
    event ∈ confirmed_events ∧
    transactionHash event = "0xa"%string ∧
    12 ≤ H - blockNumber event ∧
    ((∃ k, (k, event) ∈ pending_events (event_scanner self)) ∨ event ∈ fetched c self).
Proof.
  intros c self. split; [reflexivity|].
  destruct (cycle_relays_confirmed_only c self Missing "0xa") as (_ & _ & _ & Hex).
  - apply elem_of_cons. by left.
  - exact Hex.
Defined.

Lemma relay_confirmed_relayed_sublist relayer dest confirmed_events cache :
  relayed (relay_confirmed relayer dest confirmed_events cache).2
    `sublist_of` transactionHash <$> confirmed_events.
Proof.
  revert cache. induction confirmed_events as [|event rest IH]; intros cache; csimpl.
  - constructor.
  - case_decide; [by apply sublist_cons|].
    destruct (relay_mint_transaction relayer (dest event) event) as [r|e]; simpl.
    2:{ apply sublist_nil_l. }
    destruct (truthy r).
    + specialize (IH ({[transactionHash event]} ∪ cache)).
      destruct (relay_confirmed _ _ _ _) as [[res cache'] tr]. by apply sublist_skip.
    + specialize (IH cache).
      destruct (relay_confirmed _ _ _ _) as [[res cache'] tr]. by apply sublist_skip.
Qed.

Lemma keyed_by_hash_keys d : keyed_by_hash d → transactionHash <$> d.*2 = d.*1.
Proof.
  intros [_ Hkey]. induction d as [|[k ev] d IH]; [done|]. csimpl.
  rewrite IH.
  - f_equal. symmetry. apply Hkey. by left.
  - intros k' ev' Hin. apply Hkey. by right.
Qed.

Lemma scan_confirmed_hashes chain self file confirmed_events :
  keyed_by_hash (pending_events self) →
  scan_outcome (scan_and_process_blocks chain self file) = Returned confirmed_events →
  NoDup (transactionHash <$> confirmed_events).
Proof.
  intros Hwf. unfold scan_and_process_blocks.
  destruct (block_number chain) as [H|]; [|done].
  destruct (_ >=? _); simpl.
  { intros [= <-]. apply NoDup_nil_2. }
  destruct (get_logs chain _ _) as [logs|]; simpl.
  2:{ intros [= <-]. apply NoDup_nil_2. }
  pose proof (foldl_track_keyed_by_hash logs _ Hwf) as Hwf1.
  rewrite check_confirmations_unfold, confirmed_of_filter. simpl. intros [= <-].
  eapply sublist_NoDup; [apply Hwf1|].
  rewrite <-(keyed_by_hash_keys _ Hwf1). do 2 apply fmap_sublist. apply sublist_filter.
Qed.

(** X8. Within one iteration no transaction is handed to the relayer
    twice: a relay that failed is not tried again in the same iteration. *)
Theorem cycle_relays_once (c : Cycle) (self : CrossChainProcessor) (file : StateFile) :
  keyed_by_hash (pending_events (event_scanner self)) →
  NoDup (relayed (cycle c self file).2).
Proof.
  intros Hwf. destruct (cycle_relayed c self file) as [->|(_ & _ & l & Hscan & ->)].
  { apply NoDup_nil_2. }
  eapply sublist_NoDup; [|apply relay_confirmed_relayed_sublist].
  by eapply scan_confirmed_hashes.
Qed.

Lemma cycle_relays_once_witness :
  let c := Scenario.healthy_cycle 100
             (Returned [Scenario.deposit "0xa" 85; Scenario.deposit "0xa" 86;
                        Scenario.deposit "0xb" 80])
             (Raised (RpcError "connection reset")) in
  relayed (cycle c (Scenario.processor_at 70) Missing).2 = ["0xa"; "0xb"]%string ∧
  NoDup (relayed (cycle c (Scenario.processor_at 70) Missing).2).
Proof.
  intros c. split; [reflexivity|].
  apply (cycle_relays_once c (Scenario.processor_at 70) Missing).
  split; [apply NoDup_nil_2|]. intros k ev Hin. by apply elem_of_nil in Hin.
Defined.

(** ** What the cache holds *)

Lemma guarded_recorded_iff L tr tx :
  guarded L tr →
  tx ∈ recorded tr ↔ ∃ r, Relay tx r ∈ tr ∧ truthy r = true.
Proof.
  induction 1 as [L|L a tr Hr Ha Hg IH|L tx0 r0 tr Hin Hr Hg IH|L tx0 r0 tr Hin Hr Hg IH].
  - split; [by intros ?%elem_of_nil|]. by intros (r & ?%elem_of_nil & _).
  - rewrite recorded_cons_other, IH by done. split.
    + intros (r & ? & ?). exists r. split; [by right|done].
    + intros (r & [<-|?]%elem_of_cons & ?); [by destruct (Hr tx r)|eauto].
  - change (recorded (Relay tx0 r0 :: tr)) with (recorded tr). rewrite IH. split.
    + intros (r & ? & ?). exists r. split; [by right|done].
    + intros (r & [[= -> ->]|?]%elem_of_cons & ?); [congruence|eauto].
  - change (recorded (Relay tx0 r0 :: CacheAdd tx0 :: tr)) with (tx0 :: recorded tr).
    rewrite elem_of_cons, IH. split.
    + intros [->|(r & ? & ?)].
      * exists r0. split; [by left|done].
      * exists r. split; [by do 2 right|done].
    + intros (r & [[= -> ->]|[?|?]%elem_of_cons]%elem_of_cons & ?);
        [by left|done|right; eauto].
Qed.

(** X9. After any number of iterations the cache holds exactly what it
    held before plus the transactions whose relay returned a hash during
    those iterations; a relay that returned [None] adds nothing, and nothing
    is ever removed. *)
Theorem run_cache_is_successes (cycles : list Cycle) (self : CrossChainProcessor)
    (file : StateFile) (tx : string) :
  tx ∈ processed_txs_cache (run cycles self file).1.1 ↔
  tx ∈ processed_txs_cache self ∨
  ∃ r, Relay tx r ∈ (run cycles self file).2 ∧ truthy r = true.
Proof.
  destruct (run_guarded cycles self file) as [Hg ->].
  rewrite elem_of_union, elem_of_list_to_set. by rewrite (guarded_recorded_iff _ _ _ Hg).
Qed.

(** ** How an iteration ends *)

Lemma relay_confirmed_no_sleep relayer dest confirmed_events cache m :
  Sleep m ∉ (relay_confirmed relayer dest confirmed_events cache).2.
Proof.
  revert cache. induction confirmed_events as [|event rest IH]; intros cache; simpl.
  - apply not_elem_of_nil.
  - case_decide; [done|].
    destruct (relay_mint_transaction relayer (dest event) event) as [r|e]; simpl.
    2:{ apply not_elem_of_nil. }
    destruct (truthy r).
    + specialize (IH ({[transactionHash event]} ∪ cache)).
      destruct (relay_confirmed _ _ _ _) as [[res cache'] tr]. simpl in *.
      rewrite !not_elem_of_cons. done.
    + specialize (IH cache).
      destruct (relay_confirmed _ _ _ _) as [[res cache'] tr]. simpl in *.
      rewrite !not_elem_of_cons. done.
Qed.

Lemma scan_trace_no_sleep chain self file m :
  Sleep m ∉ scan_trace (scan_and_process_blocks chain self file).
Proof.
  unfold scan_and_process_blocks.
  destruct (block_number chain); [destruct (_ >=? _)|];
    [|destruct (get_logs _ _ _); [destruct (_check_confirmations _ _)|]|];
    simpl; rewrite ?not_elem_of_cons; split_and?; done || apply not_elem_of_nil.
Qed.

(** X10. Every iteration pauses once, as its last action and nowhere
    else: for 60 seconds, or for the configured scan interval, and for the
    latter only if it is a length [time.sleep] accepts. With a negative or
    oversized interval the call at the end of the iteration raises without
    pausing and the handler pauses 60 seconds instead. *)
Theorem cycle_sleeps_once (c : Cycle) (self : CrossChainProcessor) (file : StateFile) :
  ∃ tr n,
    (cycle c self file).2 = tr ++ [Sleep n] ∧
    (n = 60 ∨
     n = scan_interval_seconds (config self) ∧
     0 ≤ scan_interval_seconds (config self) ≤ SLEEP_MAX) ∧
    (∀ m, ¬ Sleep m ∈ tr) ∧
    (scan_interval_seconds (config self) < 0 ∨
     SLEEP_MAX < scan_interval_seconds (config self) → n = 60).
Proof.
  unfold cycle. destruct (_ || _); simpl.
  { exists [], 60. split_and!; [done|by left| |done]. intros m. apply not_elem_of_nil. }
  pose proof (scan_trace_no_sleep (source c) (event_scanner self) file) as Hscan.
  destruct (scan_outcome _) as [confirmed_events|e]; simpl.
  2:{ eexists _, 60. split_and!; [done|by left|done..]. }
  pose proof (relay_confirmed_no_sleep (tx_relayer self) (dest c) confirmed_events
                (processed_txs_cache self)) as Hrelay.
  assert (∀ tr m, (∀ m, Sleep m ∉ tr) →
            ¬ Sleep m ∈ scan_trace (scan_and_process_blocks (source c)
                                      (event_scanner self) file) ++ tr) as Hno.
  { intros tr m Htr [?|?]%elem_of_app; [by eapply Hscan|by eapply Htr]. }
  destruct (relay_confirmed _ _ _ _) as [[[] cache'] tr]; simpl in *.
  - unfold time_sleep. repeat case_decide; simpl.
    + eexists (_ ++ tr), 60. rewrite <-app_assoc. split_and!; [done|by left|eauto|done].
    + eexists (_ ++ tr), 60. rewrite <-app_assoc. split_and!; [done|by left|eauto|done].
    + eexists (_ ++ tr), _. rewrite <-app_assoc.
      split_and!; [done|right; split; [done|lia]|eauto|lia].
  - eexists (_ ++ tr), 60. rewrite <-app_assoc. split_and!; [done|by left|eauto|done].
Qed.




(** ** Restarts *)

Lemma scan_ignores_unfetched chain self file tx :
  keyed_by_hash (pending_events self) →
  tx ∉ (pending_events self).*1 →
  (∀ H logs,
     block_number chain = Returned H → last_scanned_block self < H →
     get_logs chain (last_scanned_block self + 1)
       (Z.min H (last_scanned_block self + 1 + 100)) = Returned logs →
     tx ∉ transactionHash <$> logs) →
  let r := scan_and_process_blocks chain self file in
  (∀ confirmed_events,
     scan_outcome r = Returned confirmed_events →
     tx ∉ transactionHash <$> confirmed_events) ∧
  tx ∉ (pending_events (scan_self r)).*1.
Proof.
  intros Hwf Hpend Hlogs r. subst r. unfold scan_and_process_blocks.
  destruct (block_number chain) as [H|] eqn:Hbn; [|by split].
  destruct (Z.geb_spec (last_scanned_block self) H) as [Hge|Hlt]; simpl.
  { split; [|done]. intros ? [= <-]. by intros ?%elem_of_nil. }
  destruct (get_logs chain _ _) as [logs|] eqn:Hget; simpl.
  2:{ split; [|done]. intros ? [= <-]. by intros ?%elem_of_nil. }
  pose proof (foldl_track_keyed_by_hash logs _ Hwf) as [Hnd Hkey].
  assert (Hfresh : tx ∉ (foldl track (pending_events self) logs).*1).
  { intros [?|?]%foldl_track_keys; [done|]. by eapply (Hlogs H logs). }
  rewrite check_confirmations_unfold. simpl. split.
  - intros ? [= <-] (ev & -> & (k & Hin & _)%confirmed_of_events)%list_elem_of_fmap.
    apply Hfresh, list_elem_of_fmap. exists (k, ev). split; [|done].
    simpl. symmetry. eauto.
  - intros Hin%foldl_delitem_keys. done.
Qed.

Lemma cycle_ignores_unfetched c self file tx :
  keyed_by_hash (pending_events (event_scanner self)) →
  tx ∉ (pending_events (event_scanner self)).*1 →
  tx ∉ transactionHash <$> fetched c self →
  (tx ∉ relayed (cycle c self file).2) ∧
  (tx ∉ (pending_events (event_scanner (cycle c self file).1.1)).*1).
Proof.
  intros Hwf Hpend Hfetched. unfold cycle. unfold fetched in Hfetched.
  destruct (_is_rpc_healthy (source_probe c)); simpl in *.
  2:{ split; [apply not_elem_of_nil|done]. }
  destruct (_is_rpc_healthy (dest_probe c)); simpl in *.
  2:{ split; [apply not_elem_of_nil|done]. }
  destruct (scan_ignores_unfetched (source c) (event_scanner self) file tx)
    as [Hconf Hpend']; [done..| |].
  { intros H logs Hbn Hlt Hlogs. revert Hfetched. rewrite Hbn.
    destruct (Z.geb_spec (last_scanned_block (event_scanner self)) H); [lia|].
    by rewrite Hlogs. }
  destruct (scan_trace_quiet (source c) (event_scanner self) file ∅) as (_ & _ & Hquiet).
  destruct (scan_outcome _) as [confirmed_events|e]; simpl.
  2:{ split; [|done]. rewrite relayed_app, Hquiet. by intros ?%elem_of_nil. }
  specialize (Hconf _ eq_refl).
  pose proof (relay_confirmed_relayed (tx_relayer self) (dest c) confirmed_events
                (processed_txs_cache self) tx) as Hrel.
  destruct (relay_confirmed _ _ _ _) as [[res cache'] tr]. simpl in Hrel.
  assert (∀ n, tx ∉ relayed (scan_trace (scan_and_process_blocks (source c)
                                           (event_scanner self) file)
                             ++ tr ++ [Sleep n])) as Hno.
  { intros n. rewrite !relayed_app, Hquiet. simpl. rewrite app_nil_r. auto. }
  destruct res; [destruct (time_sleep _)|]; simpl; auto.
Qed.

Lemma cycle_keyed_by_hash c self file :
  keyed_by_hash (pending_events (event_scanner self)) →
  keyed_by_hash (pending_events (event_scanner (cycle c self file).1.1)).
Proof.
  intros Hwf. destruct (cycle_scanner c self file) as [[-> _]|[-> _]]; [done|].
  by apply scan_keyed_by_hash.
Qed.

Lemma run_ignores_unfetched cycles self file tx :
  keyed_by_hash (pending_events (event_scanner self)) →
  tx ∉ (pending_events (event_scanner self)).*1 →
  never_fetched tx cycles self file →
  tx ∉ relayed (run cycles self file).2.
Proof.
  revert self file. induction cycles as [|c cycles IH]; intros self file Hwf Hpend Hall; simpl.
  { by intros ?%elem_of_nil. }
  destruct Hall as [Hc Hall].
  destruct (cycle_ignores_unfetched c self file tx) as [Hrel Hpend']; [done..|].
  pose proof (cycle_keyed_by_hash c self file Hwf) as Hwf'.
  destruct (cycle c self file) as [[self1 file1] tr1]. simpl in *.
  specialize (IH self1 file1 Hwf' Hpend' Hall).
  destruct (run cycles self1 file1) as [[self2 file2] tr2]. simpl in *.
  rewrite relayed_app, elem_of_app. tauto.
Qed.

(** X12. A restart carries no pending event over: after it, a transaction
    is handed to the relayer only if one of the log queries made from then
    on answers with a log of it. An event that was detected but not yet
    confirmed when the process stopped lies below the cursor, so the
    queries no longer reach its block and it is never relayed, even though
    the node still has its log. *)
Theorem restart_forgets_pending (cfg : ConfigManager) (relayer : TransactionRelayer)
    (chain_height : Result Z) (file : StateFile) (self : CrossChainProcessor)
    (cycles : list Cycle) (tx : string) :
  CrossChainProcessor_init cfg relayer chain_height file = Returned self →
  never_fetched tx cycles self file →
  ¬ tx ∈ relayed (run cycles self file).2.
Proof.
  unfold CrossChainProcessor_init.
  destruct (_load_last_scanned_block chain_height file) as [b|e]; [|done].
  intros [= <-] Hall. apply run_ignores_unfetched; [| |done]; simpl.
  - split; [apply NoDup_nil_2|]. by intros k ev ?%elem_of_nil.
  - apply not_elem_of_nil.
Qed.

(** X12 on a node that keeps its history: it answers every query whose
    range holds block 95 with the deposit of 0xa. Detected at height 100,
    the event is pending (age 5) when the process stops with the cursor at
    100; the new process asks for blocks 101 to 120 and 121 to 140, gets no
    log of 0xa, and relays nothing. *)
Lemma restart_forgets_pending_witness :
  let archive h :=
    {| source_probe := JsonBody true; dest_probe := JsonBody true;
       source := {| block_number := Returned h;
                    get_logs := λ f t,
                      Returned (if (f <=? 95) && (95 <=? t)
                                then [Scenario.deposit "0xa" 95] else []) |};
       dest := λ _, Scenario.dest_node (Returned "0xd1"%string) 1 |} in
  let before := run [archive 100] (Scenario.processor_at 50) (_save_last_scanned_block 50) in
  pending_events (event_scanner before.1.1) = [("0xa"%string, Scenario.deposit "0xa" 95)] ∧
  CrossChainProcessor_init Scenario.default_config Scenario.relayer (Returned 100) before.1.2
  = Returned (Scenario.processor_at 100) ∧
  reports (archive 120) "0xa" ∧
  ¬ "0xa"%string ∈
      relayed (run [archive 120; archive 140] (Scenario.processor_at 100) before.1.2).2.
Proof.
  intros archive before. split_and!; [reflexivity..| |].
  - exists 90, 100, [Scenario.deposit "0xa" 95]. split; [reflexivity|].
    apply elem_of_cons. by left.
  - apply (restart_forgets_pending Scenario.default_config Scenario.relayer
             (Returned 100) before.1.2 (Scenario.processor_at 100)
             [archive 120; archive 140] "0xa").
    + reflexivity.
    + simpl. split_and!; [|  |done]; vm_compute; intros Hin; by apply elem_of_nil in Hin.
Defined.

(** ** Reading the state file *)

(** X13. [_load_last_scanned_block] returns only when the block height
    can be read, also when the state file is valid; what it returns is the
    stored value if the file is an object with the key, and the height minus
    one if the file is missing, not decodable or an object without the key.
    A file that decodes to something that is not an object raises
    [AttributeError]. *)
Theorem load_last_scanned_block_cases (chain_height : Result Z) (file : StateFile)
    (b : Z) :
  (_load_last_scanned_block chain_height file = Returned b ↔
   ∃ h, chain_height = Returned h ∧
        match file with
        | Missing | Undecodable => b = h - 1
        | NotAnObject => False
        | Object state => b = default (h - 1) (state !! "last_scanned_block"%string)
        end) ∧
  _load_last_scanned_block chain_height NotAnObject = Raised AttributeError.
Proof.
  split; [|done]. unfold _load_last_scanned_block, mbind, mret, Result_bind, Result_ret.
  destruct file, chain_height as [h|[]]; split;
    try (intros [= <-]; by eexists);
    try (intros (h' & [= <-] & ->); done);
    try (intros (h' & [= <-] & []));
    try done; try (intros (h' & ? & _); done).
Qed.

(** ** The health checker loop *)

Lemma check_returns probe self :
  Health.check probe self
  = Returned (Health.set_status
                (match probe with
                 | Returned true => Health.healthy
                 | _ => Health.unhealthy
                 end) self).
Proof. unfold Health.check. by destruct probe as [[]|]. Qed.

Lemma wait_returns request self :
  Health.interval self ≤ Health.TIMEOUT_MAX →
  Health.wait request self
  = Returned (Health.set_stop_event
                (match request with Health.NoStop => Health._stop_event self | _ => true end)
                self).
Proof.
  intros Hmax. unfold Health.wait.
  destruct request; rewrite ?decide_False by lia; [by destruct self|done..].
Qed.

(** X14. When the loop of [_run_checks] has run some probes without being
    stopped, with an interval that the wait accepts, the status is that of
    the last probe alone: healthy if it returned true, unhealthy if it
    returned false or raised; earlier results leave no trace, and the other
    fields of the checker are untouched. *)
Theorem run_checks_last_probe (before : list Health.Tick) (t : Health.Tick)
    (self : Health.HealthChecker) :
  Health._stop_event self = false →
  Health.interval self ≤ Health.TIMEOUT_MAX →
  Forall (λ t', Health.stop_requested t' = Health.NoStop) before →
  Health._run_checks (before ++ [t]) self
  = (Returned (match Health.stop_requested t with
               | Health.NoStop => Health.Waiting
               | _ => Health.Exited
               end),
     {| Health.interval := Health.interval self;
        Health.status := match Health.probe t with
                         | Returned true => Health.healthy
                         | _ => Health.unhealthy
                         end;
        Health._thread := Health._thread self;
        Health._stop_event := match Health.stop_requested t with
                              | Health.NoStop => false
                              | _ => true
                              end |}).
Proof.
  revert self. induction before as [|t' before IH]; intros self Hstop Hmax Hall; simpl.
  - rewrite Hstop, check_returns, wait_returns by done. simpl.
    by destruct (Health.stop_requested t); simpl; rewrite ?Hstop.
  - apply Forall_cons in Hall as [Ht' Hall].
    rewrite Hstop, check_returns, wait_returns by done. rewrite Ht'. simpl.
    by rewrite IH.
Qed.

Lemma run_checks_last_probe_witness :
  ∃ self,
    Health.init 30 = Returned self ∧
    Health.is_healthy self = false ∧
    ∃ self',
      Health._run_checks
        [ {| Health.probe := Returned true; Health.stop_requested := Health.NoStop |};
          {| Health.probe := Raised (RpcError "refused");
             Health.stop_requested := Health.NoStop |};
          {| Health.probe := Returned true; Health.stop_requested := Health.NoStop |} ] self
      = (Returned Health.Waiting, self') ∧
      Health.is_healthy self' = true.
Proof.
  eexists. split; [reflexivity|]. split; [reflexivity|].
  eexists. split.
  - apply (run_checks_last_probe
             [ {| Health.probe := Returned true; Health.stop_requested := Health.NoStop |};
               {| Health.probe := Raised (RpcError "refused");
                  Health.stop_requested := Health.NoStop |} ]
             {| Health.probe := Returned true; Health.stop_requested := Health.NoStop |}).
    + reflexivity.
    + vm_compute. discriminate.
    + repeat (apply Forall_cons; split; [reflexivity|]). apply Forall_nil_2.
  - reflexivity.
Defined.

(** X15. Once [stop] has set the event during a turn, the loop ends
    without running another probe: whatever probes would follow have no
    effect on the result (the interval being one that the wait accepts). *)
Theorem run_checks_stops (before rest : list Health.Tick) (t : Health.Tick)
    (self : Health.HealthChecker) :
  Health.stop_requested t ≠ Health.NoStop →
  Health.interval self ≤ Health.TIMEOUT_MAX →
  Health._run_checks (before ++ t :: rest) self
  = Health._run_checks (before ++ [t]) self ∧
  ∃ self', Health._run_checks (before ++ t :: rest) self = (Returned Health.Exited, self').
Proof.
  intros Ht. revert self. induction before as [|t' before IH]; intros self Hmax; simpl.
  - destruct (Health._stop_event self); [by eauto|].
    rewrite check_returns, wait_returns by done.
    destruct (Health.stop_requested t); [done|..]; simpl; destruct rest; simpl; eauto.
  - destruct (Health._stop_event self); [by eauto|].
    rewrite check_returns, wait_returns by done. by apply IH.
Qed.

Lemma run_checks_stops_witness :
  let t := {| Health.probe := Returned false; Health.stop_requested := Health.DuringWait |} in
  let later := {| Health.probe := Returned true; Health.stop_requested := Health.NoStop |} in
  let self := {| Health.interval := 30; Health.status := Health.unknown;
                 Health._thread := Some true; Health._stop_event := false |} in
  Health._run_checks [t; later; later] self = Health._run_checks [t] self ∧
  Health._run_checks [t] self
  = (Returned Health.Exited,
     Health.set_stop_event true (Health.set_status Health.unhealthy self)).
Proof.
  intros t later self. split; [|reflexivity].
  apply (run_checks_stops [] [later; later] t self); [discriminate|].
  vm_compute. discriminate.
Defined.

(** X16. [start] twice is [start] once; a [stop] that sees the thread end
    followed by [start] gives a running checker again; but a [stop] whose
    join times out leaves the thread alive with the event set, and a
    [start] right after it changes nothing, so the event stays set and the
    loop ends at its next test: the checker is not restarted. *)
Theorem start_stop_compose (self : Health.HealthChecker) :
  Health.start (Health.start self) = Health.start self ∧
  Health._thread (Health.start self) = Some true ∧
  (Health._thread self ≠ Some true →
   Health.start (Health.stop true (Health.start self)) = Health.start self) ∧
  (Health._thread self = Some true →
   Health.start (Health.stop false self) = Health.stop false self ∧
   Health._stop_event (Health.start (Health.stop false self)) = true ∧
   ∀ ticks, ∃ self',
     Health._run_checks ticks (Health.start (Health.stop false self))
     = (Returned Health.Exited, self')).
Proof.
  destruct self as [i s [[]|] ev]; unfold Health.start, Health.stop; simpl;
    split_and!; try done; intros _; split_and!; try done;
    intros ticks; destruct ticks; simpl; eauto.
Qed.

(** X19. A checker whose interval is above [TIMEOUT_MAX] (the constructor
    accepts any positive integer) runs one probe and no more: the status of
    that probe is recorded and then the wait raises [OverflowError], which
    ends the loop, unless [stop] was requested while the probe ran. *)
Theorem run_checks_oversized_interval (t : Health.Tick) (rest : list Health.Tick)
    (self : Health.HealthChecker) :
  Health._stop_event self = false →
  Health.TIMEOUT_MAX < Health.interval self →
  Health.stop_requested t ≠ Health.DuringProbe →
  Health._run_checks (t :: rest) self
  = (Raised OverflowError,
     Health.set_status (match Health.probe t with
                        | Returned true => Health.healthy
                        | _ => Health.unhealthy
                        end) self).
Proof.
  intros Hstop Hmax Ht. simpl. rewrite Hstop, check_returns. unfold Health.wait.
  destruct (Health.stop_requested t); [|done|]; simpl; by rewrite decide_True.
Qed.

Lemma run_checks_oversized_interval_witness :
  ∃ self,
    Health.init (2 ^ 64) = Returned self ∧
    Health._run_checks
      [ {| Health.probe := Returned true; Health.stop_requested := Health.NoStop |};
        {| Health.probe := Returned false; Health.stop_requested := Health.NoStop |} ] self
    = (Raised OverflowError, Health.set_status Health.healthy self).
Proof.
  eexists. split; [reflexivity|].
  apply (run_checks_oversized_interval
           {| Health.probe := Returned true; Health.stop_requested := Health.NoStop |}).
  - reflexivity.
  - reflexivity.
  - discriminate.
Defined.

(** ** ConfigManager *)

Lemma unset_false o : Config.unset o = false ↔ ∃ s, o = Some s ∧ s ≠ ""%string.
Proof.
  destruct o as [s|]; simpl.
  - destruct (String.eqb_spec s ""); split; try done.
    + intros (s' & [= <-] & ?). done.
    + eauto.
  - split; [done|]. by intros (s & ? & _).
Qed.

Lemma missing_vars_elem_of self var :
  var ∈ Config.missing_vars self ↔
  ∃ attribute, (var, attribute) ∈ Config.required_vars ∧
               Config.unset (attribute self) = true.
Proof.
  unfold Config.missing_vars. rewrite list_elem_of_omap. split.
  - intros ([v a] & Hin & Hv). destruct (Config.unset (a self)) eqn:Hu; [|done].
    injection Hv as ->. eauto.
  - intros (a & Hin & Hu). exists (var, a). by rewrite Hu.
Qed.

Lemma validate_returns self :
  Config.validate self = Returned () ↔
  (∃ s, Config.source_rpc_url self = Some s ∧ s ≠ ""%string) ∧
  (∃ s, Config.dest_rpc_url self = Some s ∧ s ≠ ""%string) ∧
  (∃ s, Config.relayer_private_key self = Some s ∧ s ≠ ""%string) ∧
  (∃ s, Config.source_bridge_address self = Some s ∧ s ≠ ""%string) ∧
  (∃ s, Config.dest_bridge_address self = Some s ∧ s ≠ ""%string).
Proof.
  rewrite <-!unset_false. unfold Config.validate, Config.missing_vars. simpl.
  destruct (Config.unset (Config.source_rpc_url self)),
           (Config.unset (Config.dest_rpc_url self)),
           (Config.unset (Config.relayer_private_key self)),
           (Config.unset (Config.source_bridge_address self)),
           (Config.unset (Config.dest_bridge_address self)); simpl;
    split; (done || (intros (? & ? & ? & ? & ?); done) || idtac).
Qed.

(** X17. [validate] accepts a configuration exactly when each of the five
    required settings is present and not the empty string; otherwise it
    raises a [ValueError] whose message lists, after a fixed prefix and
    separated by commas, the names of the settings that are missing, and
    only those. *)
Theorem validate_cases (self : Config.Settings) :
  (Config.validate self = Returned () ↔
   (∃ s, Config.source_rpc_url self = Some s ∧ s ≠ ""%string) ∧
   (∃ s, Config.dest_rpc_url self = Some s ∧ s ≠ ""%string) ∧
   (∃ s, Config.relayer_private_key self = Some s ∧ s ≠ ""%string) ∧
   (∃ s, Config.source_bridge_address self = Some s ∧ s ≠ ""%string) ∧
   (∃ s, Config.dest_bridge_address self = Some s ∧ s ≠ ""%string)) ∧
  (∀ e, Config.validate self = Raised e →
     ∃ missing,
       missing ≠ [] ∧
       e = ValueError ("Missing required environment variables: "
                       +:+ String.concat ", " missing) ∧
       missing `sublist_of` Config.required_vars.*1 ∧
       ∀ var, var ∈ missing ↔
              ∃ attribute, (var, attribute) ∈ Config.required_vars ∧
                           Config.unset (attribute self) = true).
Proof.
  split; [apply validate_returns|].
  intros e. unfold Config.validate.
  pose proof (missing_vars_elem_of self) as Hin.
  assert (Config.missing_vars self `sublist_of` Config.required_vars.*1) as Hsub.
  { unfold Config.missing_vars. generalize Config.required_vars.
    induction l as [|[v a] l IH]; csimpl; [constructor|].
    destruct (Config.unset (a self)); [by apply sublist_skip|by apply sublist_cons]. }
  destruct (Config.missing_vars self) as [|var missing] eqn:Hm; [done|].
  intros [= <-]. exists (var :: missing). split_and!; done.
Qed.

(** X18. When [ConfigManager.__init__] returns, each required setting is
    the non-empty text of its environment variable, and the two numbers are
    what [int] makes of their variables, or 12 and 15 where the variable is
    not set. A number that [int] rejects makes [__init__] raise before the
    required settings are looked at. *)
Theorem init_returns (int : string → Result Z) (environ : gmap string string)
    (self : Config.Settings) :
  Config.init int environ = Returned self →
  (∀ name attribute,
     (name, attribute) ∈
       [("SOURCE_CHAIN_RPC_URL"%string, Config.source_rpc_url);
        ("DEST_CHAIN_RPC_URL"%string, Config.dest_rpc_url);
        ("RELAYER_PRIVATE_KEY"%string, Config.relayer_private_key);
        ("SOURCE_BRIDGE_CONTRACT_ADDRESS"%string, Config.source_bridge_address);
        ("DEST_BRIDGE_CONTRACT_ADDRESS"%string, Config.dest_bridge_address)] →
     attribute self = environ !! name ∧ ∃ s, environ !! name = Some s ∧ s ≠ ""%string) ∧
  match environ !! "CONFIRMATION_BLOCKS"%string with
  | Some text => int text = Returned (Config.confirmation_blocks self)
  | None => Config.confirmation_blocks self = 12
  end ∧
  match environ !! "SCAN_INTERVAL_SECONDS"%string with
  | Some text => int text = Returned (Config.scan_interval_seconds self)
  | None => Config.scan_interval_seconds self = 15
  end.
Proof.
  unfold Config.init, Config.getenv_int, mbind, mret, Result_bind, Result_ret.
  intros Hinit.
  destruct (match environ !! "CONFIRMATION_BLOCKS"%string with
            | Some text => int text | None => Returned 12 end) as [cb|] eqn:Hcb; [|done].
  destruct (match environ !! "SCAN_INTERVAL_SECONDS"%string with
            | Some text => int text | None => Returned 15 end) as [si|] eqn:Hsi; [|done].
  destruct (Config.validate _) as [[]|] eqn:Hv; [|done].
  injection Hinit as <-. apply validate_returns in Hv as (H1 & H2 & H3 & H4 & H5).
  simpl in *. split_and!.
  - intros name attribute Hin.
    repeat (apply elem_of_cons in Hin as [[= -> ->]|Hin]; [by split|]).
    by apply elem_of_nil in Hin.
  - destruct (environ !! "CONFIRMATION_BLOCKS"%string); congruence.
  - destruct (environ !! "SCAN_INTERVAL_SECONDS"%string); congruence.
Qed.

Lemma init_returns_witness :
  let int := λ text : string,
    if String.eqb text "6" then Returned 6 else Raised (ValueError "invalid literal") in
  let environ : gmap string string :=
    {[ "SOURCE_CHAIN_RPC_URL"%string := "http://source"%string;
       "DEST_CHAIN_RPC_URL"%string := "http://dest"%string;
       "RELAYER_PRIVATE_KEY"%string := "0xkey"%string;
       "SOURCE_BRIDGE_CONTRACT_ADDRESS"%string := "0xsrc"%string;
       "DEST_BRIDGE_CONTRACT_ADDRESS"%string := "0xdst"%string;
       "CONFIRMATION_BLOCKS"%string := "6"%string ]} in
  ∃ self,
    Config.init int environ = Returned self ∧
    Config.confirmation_blocks self = 6 ∧
    Config.scan_interval_seconds self = 15.
Proof.
  intros int environ. eexists. split; [reflexivity|].
  split; [reflexivity|].
  match goal with
  | |- Config.scan_interval_seconds ?s = _ =>
      destruct (init_returns int environ s eq_refl) as (_ & _ & Hsi)
  end.
  exact Hsi.
Defined.
